(** * BuscadorWeb: an in-memory inverted index

    Shallow embedding of [src/buscador_utiles.py] and the properties of its
    normaliser, index builder, query evaluator and statistics reporter.

    Conventions of the embedding.
    - A Python [str] is a [string]; one [ascii] stands for one code point in
      U+0000..U+00FF (Latin-1), the range in which the program's own
      constants ([STOP_WORDS], [PUNTUACION]) are written.  The character
      tables of [str.lower], [str.isalpha] and [str.split] are those of
      CPython 3 restricted to that range.
    - The normaliser is also given on texts of any code points
      ([normalizar_texto_u]), over a character database and with the
      treatment [str.lower] gives the capital sigma; on texts in
      U+0000..U+00FF the two agree ([normalizar_texto_u_latin1]).
    - A Python [set] is an object on a heap and the index is a [dict] from
      words to references to such objects, so that aliasing between a result
      and a posting set of the index is visible.
    - Functions that read or write the index live in a state-and-exception
      monad [M]; an exception leaves the state as it was when it was raised. *)

From Stdlib Require Import ZArith Ascii String.
From Stdlib Require Import Floats.PrimFloat Numbers.Cyclic.Int63.Uint63.
From stdpp Require Import gmap strings list fin_maps sorting.

Open Scope string_scope.
Open Scope list_scope.

Set Warnings "-clear-no-such-hyp,-inexact-float".

(* ===================================================================== *)
(** * Definitions *)
(* ===================================================================== *)

(** ** Characters: the Latin-1 part of CPython's tables *)

Definition code (c : ascii) : N := N_of_ascii c.

Definition in_range (lo hi : N) (c : ascii) : bool :=
  ((lo <=? code c) && (code c <=? hi))%N.

(** Code points with a lowercase mapping: A-Z, U+00C0-U+00D6, U+00D8-U+00DE. *)
Definition char_isupper (c : ascii) : bool :=
  in_range 65 90 c || in_range 192 214 c || in_range 216 222 c.

(** [str.lower] on one code point: the lowercase partner is 32 above. *)
Definition char_lower (c : ascii) : ascii :=
  if char_isupper c then ascii_of_N (code c + 32) else c.

(** General categories Lu, Ll, Lt, Lm, Lo: the letters, U+00AA, U+00B5,
    U+00BA, and U+00C0-U+00FF without the signs U+00D7 and U+00F7. *)
Definition char_isalpha (c : ascii) : bool :=
  in_range 65 90 c || in_range 97 122 c
  || (code c =? 170)%N || (code c =? 181)%N || (code c =? 186)%N
  || in_range 192 214 c || in_range 216 246 c || in_range 248 255 c.

(** Whitespace of [str.split()]: U+0009-U+000D, U+001C-U+0020, U+0085,
    U+00A0. *)
Definition char_isspace (c : ascii) : bool :=
  in_range 9 13 c || in_range 28 32 c
  || (code c =? 133)%N || (code c =? 160)%N.

(** ** Strings: [lower], [in], [replace], [split], [isalpha] *)

Fixpoint lower (s : string) : string :=
  match s with
  | EmptyString => EmptyString
  | String c r => String (char_lower c) (lower r)
  end.

(** [i in texto] for a one-character [i]. *)
Fixpoint contains (i : ascii) (s : string) : bool :=
  match s with
  | EmptyString => false
  | String c r => Ascii.eqb c i || contains i r
  end.

(** [texto.replace(i, j)] for one-character [i] and [j]. *)
Fixpoint replace (i j : ascii) (s : string) : string :=
  match s with
  | EmptyString => EmptyString
  | String c r => String (if Ascii.eqb c i then j else c) (replace i j r)
  end.

(** The word being scanned is emitted unless it is empty. *)
Definition emit (cur : string) : list string :=
  match cur with
  | EmptyString => []
  | _ => [cur]
  end.

(** [split_from cur s]: left-to-right scan of [s], [cur] being the
    characters of the current word read so far. *)
Fixpoint split_from (cur : string) (s : string) : list string :=
  match s with
  | EmptyString => emit cur
  | String c r =>
      if char_isspace c then (emit cur ++ split_from EmptyString r)%list
      else split_from (cur +:+ String c EmptyString) r
  end.

(** [texto.split()]: split on runs of whitespace, no empty fragments. *)
Definition split (s : string) : list string := split_from EmptyString s.

Fixpoint all_chars (P : ascii -> bool) (s : string) : bool :=
  match s with
  | EmptyString => true
  | String c r => P c && all_chars P r
  end.

(** [p.isalpha()]: at least one character, and all of them alphabetic. *)
Definition isalpha (p : string) : bool :=
  match p with
  | EmptyString => false
  | _ => all_chars char_isalpha p
  end.

(** ** The program's constants *)

(** The word "mas" with U+00E1 as its second letter. *)
Definition mas : string := String "m" (String "225" (String "s" EmptyString)).

Definition STOP_WORDS : gset string :=
  list_to_set
    ["de"; "la"; "que"; "el"; "en"; "y"; "a"; "los"; "del"; "se"; "las";
     "por"; "un"; "para"; "con"; "no"; "una"; "su"; "al"; "lo"; "como";
     mas; "pero"; "sus"; "le"; "ya"; "o"].

(** The 34 characters of [PUNTUACION]; U+00A1, the double quote and U+00BF
    are given by their codes. *)
Definition PUNTUACION : string :=
  String "!" (String "161" (String "034"
    ("#$%&'()*+,-./:;<=>?" +:+ String "191" "@[\]^_`{|}~"))).

(** ** [normalizar_texto] *)

(** One round of the loop over [PUNTUACION]. *)
Definition quitar_signo (texto : string) (i : ascii) : string :=
  if contains i texto then replace i " " texto else texto.

Definition quitar_puntuacion (texto : string) : string :=
  fold_left quitar_signo (list_ascii_of_string PUNTUACION) texto.

(** The test of the filtering loop. *)
Definition es_indexable (p : string) : bool :=
  bool_decide (p ∉ STOP_WORDS) && isalpha p.

Definition normalizar_texto (texto : string) : list string :=
  let texto := lower texto in
  let texto := quitar_puntuacion texto in
  let palabras := split texto in
  fold_left (fun filtrado p =>
               if es_indexable p then (filtrado ++ [p])%list else filtrado)
            palabras [].

Definition no_upper (c : ascii) : bool := negb (char_isupper c).

(** What the claims call a lowercase word: no character of it is changed by
    [lower], and none is an uppercase letter. *)
Definition is_lowercase (p : string) : Prop :=
  lower p = p ∧ all_chars no_upper p = true.

(** ** The store: sets on a heap, the index as a dictionary of references *)

(** A reference to a set object. *)
Abbreviation loc := nat.

Inductive exn := IndexError | KeyError | AttributeError.

(** [dict] is the contents of the one dictionary object the caller passes
    around (its iteration order plays no part in what the program returns);
    [heap] holds every set object allocated so far, a reference being a
    position in it.  Objects are never freed. *)
Record state := mkState {
  dict : gmap string loc;
  heap : list (gset string)
}.

(** State threaded through a call; an exception keeps the state reached. *)
Definition M (A : Type) : Type := state -> (exn + A) * state.

Definition ret {A} (a : A) : M A := fun st => (inr a, st).

Definition raise {A} (e : exn) : M A := fun st => (inl e, st).

Definition bind {A B} (m : M A) (k : A -> M B) : M B :=
  fun st =>
    match m st with
    | (inl e, st') => (inl e, st')
    | (inr a, st') => k a st'
    end.

Notation "'do' x <- m ; k" := (bind m (fun x => k))
  (at level 10, x name, m at level 100, k at level 200,
   format "'[v' 'do'  x  <-  m ; '/' k ']'").

(** The members of the set object at [l]. *)
Definition members (h : list (gset string)) (l : loc) : gset string :=
  default ∅ (h !! l).

(** [set()] *)
Definition set_new : M loc :=
  fun st => (inr (length (heap st)), mkState (dict st) (heap st ++ [∅])).

(** [s.add(x)]: in place. *)
Definition set_add (l : loc) (x : string) : M unit :=
  fun st => (inr tt, mkState (dict st) (alter (fun s => s ∪ {[x]}) l (heap st))).

(** [s.update(t)]: in place. *)
Definition set_update (l l' : loc) : M unit :=
  fun st =>
    (inr tt,
     mkState (dict st) (alter (fun s => s ∪ members (heap st) l') l (heap st))).

(** [s.intersection(t)]: a new set object. *)
Definition set_intersection (l l' : loc) : M loc :=
  fun st =>
    (inr (length (heap st)),
     mkState (dict st)
             (heap st ++ [members (heap st) l ∩ members (heap st) l'])).

(** [len(s)] *)
Definition set_len (l : loc) : M nat :=
  fun st => (inr (size (members (heap st) l)), st).

(** Truth value of a set: it has a member. *)
Definition set_bool (l : loc) : M bool :=
  fun st => (inr (negb (bool_decide (members (heap st) l = ∅))), st).

(** [k in indice] *)
Definition dict_contains (k : string) : M bool :=
  fun st => (inr (bool_decide (is_Some (dict st !! k))), st).

(** [indice[k] = v] *)
Definition dict_setitem (k : string) (l : loc) : M unit :=
  fun st => (inr tt, mkState (<[k := l]> (dict st)) (heap st)).

(** [indice[k]] *)
Definition dict_getitem (k : string) : M loc :=
  fun st =>
    match dict st !! k with
    | Some l => (inr l, st)
    | None => (inl KeyError, st)
    end.

(** [indice.get(k, None)] *)
Definition dict_get (k : string) : M (option loc) :=
  fun st => (inr (dict st !! k), st).

(** [len(indice)] *)
Definition dict_len : M nat :=
  fun st => (inr (size (dict st)), st).

(** [indice.values()], as the list it is iterated in. *)
Definition dict_values : M (list loc) :=
  fun st => (inr ((map_to_list (dict st)).*2), st).

(** [for x in xs: body(x)] *)
Fixpoint for_each {A} (xs : list A) (body : A -> M unit) : M unit :=
  match xs with
  | [] => ret tt
  | x :: r => do _ <- body x ; for_each r body
  end.

(** ** [procesar_url_en_indice] *)

(** Body of the loop: [indice.get(p, None).add(url)] fails on [None]. *)
Definition indexar_palabra (url p : string) : M unit :=
  do esta <- dict_contains p ;
  do _ <- (if negb esta
           then do s <- set_new ; dict_setitem p s
           else ret tt) ;
  do r <- dict_get p ;
  match r with
  | Some s => set_add s url
  | None => raise AttributeError
  end.

Definition procesar_url_en_indice (url texto : string) : M unit :=
  let palabras := normalizar_texto texto in
  for_each palabras (indexar_palabra url).

(** ** [buscar_palabra_simple], [buscar_palabras_or], [buscar_palabras_and] *)

(** [normalizar_texto(palabra)[0]] fails on the empty list.  The result is
    the reference held by the index, not a copy. *)
Definition buscar_palabra_simple (palabra : string) : M loc :=
  match normalizar_texto palabra with
  | [] => raise IndexError
  | palabra :: _ =>
      do esta <- dict_contains palabra ;
      if negb esta then set_new else dict_getitem palabra
  end.

Definition buscar_palabras_or (frase : string) : M loc :=
  let palabras := normalizar_texto frase in
  do res <- set_new ;
  do _ <- for_each palabras (fun p =>
            do palabra_actual <- buscar_palabra_simple p ;
            set_update res palabra_actual) ;
  ret res.

(** The loop over [lista[1:]], left by [break] when [resultado] is empty. *)
Fixpoint and_bucle (resultado : loc) (resto : list string) : M loc :=
  match resto with
  | [] => ret resultado
  | p :: resto' =>
      do urls_palabra <- buscar_palabra_simple p ;
      do resultado' <- set_intersection resultado urls_palabra ;
      do lleno <- set_bool resultado' ;
      if negb lleno then ret resultado' else and_bucle resultado' resto'
  end.

Definition buscar_palabras_and (frase : string) : M loc :=
  let lista := normalizar_texto frase in
  match lista with
  | [] => set_new
  | primera :: resto =>
      do resultado <- buscar_palabra_simple primera ;
      and_bucle resultado resto
  end.

(** ** [collections.Counter] and [most_common] *)

(** A [Counter] keeps its keys in the order in which they were first
    counted; it is modelled as the list of its items in that order. *)
Fixpoint counter_incr (p : string) (c : list (string * nat))
  : list (string * nat) :=
  match c with
  | [] => [(p, 1)]
  | (k, n) :: r =>
      if String.eqb k p then (k, S n) :: r else (k, n) :: counter_incr p r
  end.

Definition Counter (palabras : list string) : list (string * nat) :=
  fold_left (fun c p => counter_incr p c) palabras [].

(** Stable insertion by decreasing count: an item goes before the first
    item whose count is not larger than its own. *)
Fixpoint insertar_desc (x : string * nat) (l : list (string * nat))
  : list (string * nat) :=
  match l with
  | [] => [x]
  | y :: r => if (x.2 <? y.2)%nat then y :: insertar_desc x r else x :: y :: r
  end.

(** [sorted(items, key=itemgetter(1), reverse=True)]: a stable sort, items
    of equal count keep their order. *)
Fixpoint sorted_desc (l : list (string * nat)) : list (string * nat) :=
  match l with
  | [] => []
  | x :: r => insertar_desc x (sorted_desc r)
  end.

(** [contador.most_common(n)] for an integer [n], that is
    [heapq.nlargest(n, items, key=itemgetter(1))]: the first [n] items of
    the stable decreasing sort, none when [n <= 0]. *)
Definition most_common (n : Z) (c : list (string * nat))
  : list (string * nat) :=
  take (Z.to_nat n) (sorted_desc c).

(** ** [procesar_url_en_indice_top_n] *)

Definition top_palabras_de (top_tuplas : list (string * nat)) : list string :=
  fold_left (fun top_palabras tupla => top_palabras ++ [tupla.1])%list
            top_tuplas [].

(** Body of the second loop: [indice[p].add(url)]. *)
Definition indexar_palabra_top (url p : string) : M unit :=
  do esta <- dict_contains p ;
  do _ <- (if negb esta
           then do s <- set_new ; dict_setitem p s
           else ret tt) ;
  do s <- dict_getitem p ;
  set_add s url.

Definition procesar_url_en_indice_top_n (url texto : string) (top_n : Z)
  : M unit :=
  let palabras := normalizar_texto texto in
  let contador := Counter palabras in
  let top_tuplas := most_common top_n contador in
  let top_palabras := top_palabras_de top_tuplas in
  for_each top_palabras (indexar_palabra_top url).

(** The default value of [top_n]. *)
Definition top_n_defecto : Z := 1000.

(** ** [calcula_estadisticas_indice] *)

(** An [int] as a [float]; exact below 2^53. *)
Definition float_of_nat (n : nat) : float :=
  PrimFloat.of_uint63 (Uint63.of_Z (Z.of_nat n)).

(** [sum(len(urls) for urls in indice.values())] *)
Fixpoint suma_len (valores : list loc) : M nat :=
  match valores with
  | [] => ret 0
  | urls :: r =>
      do n <- set_len urls ;
      do m <- suma_len r ;
      ret (n + m)
  end.

Definition calcula_estadisticas_indice : M (nat * nat * float) :=
  do num_palabras <- dict_len ;
  do urls_unicas <- set_new ;
  do valores <- dict_values ;
  do _ <- for_each valores (fun urls => set_update urls_unicas urls) ;
  do num_urls_unicas <- set_len urls_unicas ;
  do total_urls <- suma_len valores ;
  let promedio :=
    if (0 <? num_palabras)%nat
    then PrimFloat.div (float_of_nat total_urls) (float_of_nat num_palabras)
    else 0%float in
  ret (num_palabras, num_urls_unicas, promedio).

(** ** What is observed of a state *)

(** The index as a mapping from words to sets of identifiers. *)
Definition contenido (st : state) : gmap string (gset string) :=
  members (heap st) <$> dict st.

(** Every reference held by the dictionary is to an allocated object. *)
Definition heap_ok (st : state) : Prop :=
  map_Forall (fun _ l => l < length (heap st)) (dict st).

(** The empty index, on a heap that may hold other objects. *)
Definition indice_vacio (h : list (gset string)) : state := mkState ∅ h.

(** State and result of a call. *)
Definition estado {A} (m : M A) (st : state) : state := (m st).2.
Definition resultado_de {A} (m : M A) (st : state) : exn + A := (m st).1.

(** Calls that build an index. *)
Inductive llamada :=
| Indexar (url texto : string)
| IndexarTopN (url texto : string) (top_n : Z).

Definition ejecutar_llamada (st : state) (c : llamada) : state :=
  match c with
  | Indexar url texto => estado (procesar_url_en_indice url texto) st
  | IndexarTopN url texto top_n =>
      estado (procesar_url_en_indice_top_n url texto top_n) st
  end.

Definition ejecutar (cs : list llamada) (st : state) : state :=
  fold_left ejecutar_llamada cs st.

(** The set a query returns, read in the state the query leaves. *)
Definition conjunto_de (m : M loc) (st : state) : exn + gset string :=
  match m st with
  | (inr l, st') => inr (members (heap st') l)
  | (inl e, _) => inl e
  end.

(** ** The effect of the indexing loops, in closed form *)

(** One round of either loop: a word already in the dictionary has the
    identifier added to its set object, a new word gets a new object. *)
Definition paso (url : string) (st : state) (p : string) : state :=
  match dict st !! p with
  | Some l => mkState (dict st) (alter (fun s => s ∪ {[url]}) l (heap st))
  | None =>
      mkState (<[p := length (heap st)]> (dict st)) (heap st ++ [{[url]}])
  end.

Definition indexar_todas (url : string) (palabras : list string) (st : state)
  : state :=
  fold_left (paso url) palabras st.

(** The word [p] is in the index with [url] in its posting set. *)
Definition tiene (url : string) (st : state) (p : string) : Prop :=
  exists l s, dict st !! p = Some l ∧ heap st !! l = Some s ∧ url ∈ s.

(** Some word of [palabras] refers to the set object [l]. *)
Definition tocado (st : state) (palabras : list string) (l : loc) : Prop :=
  Exists (fun p => dict st !! p = Some l) palabras.

(** What a word maps to once [url] was indexed under [palabras]: an object
    gains [url] when one of the words refers to it, and a word not yet in
    the dictionary gets the set of [url] alone when it is one of them. *)
Definition tras_indexar (url : string) (palabras : list string) (st : state)
  (k : string) : option (gset string) :=
  match dict st !! k with
  | Some l =>
      Some (members (heap st) l
            ∪ (if decide (tocado st palabras l) then {[url]} else ∅))
  | None => if decide (k ∈ palabras) then Some {[url]} else None
  end.

(** ** The selection of the most frequent words, as the specification
    words it *)

(** Occurrences of [w] in the normalised sequence. *)
Definition cuenta (w : string) (ws : list string) : nat :=
  length (List.filter (String.eqb w) ws).

(** Position of the first appearance of [w]. *)
Fixpoint posicion (w : string) (ws : list string) : nat :=
  match ws with
  | [] => 0
  | x :: r => if String.eqb x w then 0 else S (posicion w r)
  end.

(** The distinct words, in the order of their first appearance. *)
Definition distintas (ws : list string) : list string :=
  fold_left (fun vistas p => if decide (p ∈ vistas) then vistas else vistas ++ [p])
            ws [].

(** [a] is ahead of [b]: more frequent, or as frequent and first to
    appear. *)
Definition precede (ws : list string) (a b : string) : Prop :=
  cuenta b ws < cuenta a ws
  ∨ (cuenta a ws = cuenta b ws ∧ posicion a ws < posicion b ws).

(** [sel] is the choice of up to [n] most frequent distinct words of [ws],
    most frequent first, ties going to the word that appears first. *)
Definition es_seleccion (n : Z) (ws sel : list string) : Prop :=
  length sel = Nat.min (Z.to_nat n) (size (list_to_set ws : gset string))
  ∧ StronglySorted (precede ws) sel
  ∧ (forall a, a ∈ sel -> a ∈ ws)
  ∧ (forall a b, a ∈ sel -> b ∈ ws -> b ∉ sel -> precede ws a b).

(** The order a stable sort by decreasing count leaves the items in:
    larger count first and, among equal counts, the item that came first
    ([antes]). *)
Definition orden_desc (antes : relation (string * nat)) (x y : string * nat)
  : Prop :=
  y.2 < x.2 ∨ (x.2 = y.2 ∧ antes x y).

(** Every word of the dictionary refers to a set object with a member. *)
Definition poblado (st : state) : Prop :=
  map_Forall (fun _ l => exists s, heap st !! l = Some s ∧ s <> ∅) (dict st).

(** [st'] has the dictionary of [st] and every set object of [st], each
    with the members it had; it may hold new objects besides. *)
Definition extiende (st st' : state) : Prop :=
  exists nuevos, st' = mkState (dict st) (heap st ++ nuevos).

(** A word that [normalizar_texto] returns unchanged, alone. *)
Definition es_palabra (p : string) : Prop := normalizar_texto p = [p].

(** The posting set of the word [p], empty when [p] is not a key. *)
Definition urls_de (st : state) (p : string) : gset string :=
  match dict st !! p with
  | Some l => members (heap st) l
  | None => ∅
  end.

(** ** The end-to-end example *)

Definition st_ejemplo : state :=
  ejecutar [Indexar "url1" "el gato come pescado";
            Indexar "url2" "el perro come carne"] (indice_vacio []).

(** ** Descriptions used by the further properties *)

(** A character that ends a word: a sign of [PUNTUACION] or whitespace. *)
Definition es_separador (c : ascii) : bool :=
  contains c PUNTUACION || char_isspace c.

Fixpoint map_chars (f : ascii -> ascii) (s : string) : string :=
  match s with
  | EmptyString => EmptyString
  | String c r => String (f c) (map_chars f r)
  end.

(** A blank for each of [signos], any other character as it is. *)
Definition blanquear (signos : list ascii) (c : ascii) : ascii :=
  if existsb (Ascii.eqb c) signos then " "%char else c.

(** No two words share one set object. *)
Definition sin_alias (st : state) : Prop :=
  map_Forall (fun k1 l1 =>
    map_Forall (fun k2 l2 => l1 = l2 -> k1 = k2) (dict st)) (dict st).

(** What a word maps to once [url] was indexed under [palabras], read off
    the mapping alone: a word of [palabras] has [url] added to its posting
    set (the empty one if it had none), any other word is as it was. *)
Definition indexado (url : string) (palabras : list string) (st : state)
  (k : string) : option (gset string) :=
  if decide (k ∈ palabras) then Some (urls_de st k ∪ {[url]})
  else contenido st !! k.

(** The identifier a call indexes, and the words it indexes it under. *)
Definition url_de (c : llamada) : string :=
  match c with
  | Indexar url _ => url
  | IndexarTopN url _ _ => url
  end.

Definition palabras_de (c : llamada) : list string :=
  match c with
  | Indexar _ texto => normalizar_texto texto
  | IndexarTopN _ texto top_n =>
      top_palabras_de (most_common top_n (Counter (normalizar_texto texto)))
  end.

(** The union of the posting sets of [palabras]. *)
Definition union_de (st : state) (palabras : list string) : gset string :=
  ⋃ (urls_de st <$> palabras).

(** The posting set of [primera] narrowed by those of [resto], in order. *)
Definition interseccion_de (st : state) (primera : string)
  (resto : list string) : gset string :=
  fold_left (fun acc p => acc ∩ urls_de st p) resto (urls_de st primera).

(** The intersection of the posting sets of [palabras], empty when there
    is no word. *)
Definition interseccion_todas (st : state) (palabras : list string)
  : gset string :=
  match palabras with
  | [] => ∅
  | primera :: resto => interseccion_de st primera resto
  end.

(** The answer to a query on one word, from the words of its
    normalisation: the first one counts, and there has to be one. *)
Definition consulta_simple (st : state) (palabras : list string)
  : exn + gset string :=
  match palabras with
  | [] => inl IndexError
  | palabra :: _ => inr (urls_de st palabra)
  end.

(** The posting sets of the index, one per word. *)
Definition conjuntos_de (st : state) : list (gset string) :=
  (map_to_list (contenido st)).*2.

(** The statistics of an index, from its mapping alone. *)
Definition estadisticas (st : state) : nat * nat * float :=
  let num_palabras := size (contenido st) in
  let total_urls := sum_list (size <$> conjuntos_de st) in
  (num_palabras,
   size (⋃ conjuntos_de st),
   if (0 <? num_palabras)%nat
   then PrimFloat.div (float_of_nat total_urls) (float_of_nat num_palabras)
   else 0%float).

(** ** The normaliser on any text *)

(** The program takes any [str].  Outside U+0000..U+00FF its string
    methods read the character database of the interpreter, and
    [str.lower] treats the capital sigma U+03A3 by its neighbours.  Here a
    text is the list of its code points and the database is a parameter. *)

(** What [str.lower], [str.split] and [str.isalpha] read of the character
    database, and the property [str.isupper] tests on a letter. *)
Record ucd := mkUcd {
  ToLowerFull : N -> list N;
  IsCased : N -> bool;
  IsCaseIgnorable : N -> bool;
  IsAlpha : N -> bool;
  IsWhitespace : N -> bool;
  IsUppercase : N -> bool
}.

(** The code points of a text written in U+0000..U+00FF. *)
Definition puntos (s : string) : list N := code <$> list_ascii_of_string s.

(** U+03A3, and its two lowercase forms U+03C2 (final) and U+03C3. *)
Definition SIGMA : N := 931.

Definition SIGMA_FINAL : N := 962.

Definition SIGMA_MINUSCULA : N := 963.

(** The first code point of [s] that is not case-ignorable. *)
Fixpoint primero_no_ignorable (db : ucd) (s : list N) : option N :=
  match s with
  | [] => None
  | c :: r => if IsCaseIgnorable db c then primero_no_ignorable db r else Some c
  end.

(** The lowercase form of a capital sigma: [antes] are the code points
    before it, the nearest first, and [despues] those after it.  It is the
    final form when a cased letter precedes it and none follows it, the
    case-ignorable code points in between not counting. *)
Definition handle_capital_sigma (db : ucd) (antes despues : list N) : N :=
  let final_sigma :=
    match primero_no_ignorable db antes with
    | Some c => IsCased db c
    | None => false
    end in
  let final_sigma :=
    if final_sigma then
      match primero_no_ignorable db despues with
      | Some c => negb (IsCased db c)
      | None => true
      end
    else false in
  if final_sigma then SIGMA_FINAL else SIGMA_MINUSCULA.

(** The loop of [str.lower]: [antes] are the code points already read, the
    last one first. *)
Fixpoint do_lower (db : ucd) (antes s : list N) : list N :=
  match s with
  | [] => []
  | c :: r =>
      (if (c =? SIGMA)%N then [handle_capital_sigma db antes r]
       else ToLowerFull db c) ++ do_lower db (c :: antes) r
  end.

(** [texto.lower()] *)
Definition u_lower (db : ucd) (s : list N) : list N := do_lower db [] s.

(** [i in texto] for a one-character [i]. *)
Definition u_contains (i : N) (s : list N) : bool := existsb (N.eqb i) s.

(** [texto.replace(i, j)] for one-character [i] and [j]. *)
Definition u_replace (i j : N) (s : list N) : list N :=
  (fun c => if (c =? i)%N then j else c) <$> s.

Definition u_emit (cur : list N) : list (list N) :=
  match cur with
  | [] => []
  | _ => [cur]
  end.

Fixpoint u_split_from (db : ucd) (cur s : list N) : list (list N) :=
  match s with
  | [] => u_emit cur
  | c :: r =>
      if IsWhitespace db c then u_emit cur ++ u_split_from db [] r
      else u_split_from db (cur ++ [c]) r
  end.

(** [texto.split()] *)
Definition u_split (db : ucd) (s : list N) : list (list N) :=
  u_split_from db [] s.

(** [p.isalpha()] *)
Definition u_isalpha (db : ucd) (p : list N) : bool :=
  match p with
  | [] => false
  | _ => forallb (IsAlpha db) p
  end.

(** The program's constants, by their code points. *)
Definition STOP_WORDS_u : gset (list N) := set_map puntos STOP_WORDS.

Definition PUNTUACION_u : list N := puntos PUNTUACION.

Definition u_quitar_signo (texto : list N) (i : N) : list N :=
  if u_contains i texto then u_replace i 32 texto else texto.

Definition u_quitar_puntuacion (texto : list N) : list N :=
  fold_left u_quitar_signo PUNTUACION_u texto.

Definition u_es_indexable (db : ucd) (p : list N) : bool :=
  bool_decide (p ∉ STOP_WORDS_u) && u_isalpha db p.

(** [normalizar_texto] on any text. *)
Definition normalizar_texto_u (db : ucd) (texto : list N) : list (list N) :=
  let texto := u_lower db texto in
  let texto := u_quitar_puntuacion texto in
  let palabras := u_split db texto in
  fold_left (fun filtrado p =>
               if u_es_indexable db p then (filtrado ++ [p])%list
               else filtrado)
            palabras [].

(** A lowercase word, as [is_lowercase] has it: [lower] leaves it as it is
    and it holds no uppercase letter. *)
Definition u_is_lowercase (db : ucd) (p : list N) : Prop :=
  u_lower db p = p ∧ forallb (fun c => negb (IsUppercase db c)) p = true.

(** A code point that is its own lowercase form wherever it stands. *)
Definition fijo (db : ucd) (c : N) : Prop :=
  ToLowerFull db c = [c] ∧ c ≠ SIGMA.

(** Lowercase forms are final: what a lowercase mapping yields is its own
    lowercase form.  The Unicode character database has this property. *)
Record ucd_estable (db : ucd) : Prop := mkEstable {
  estable_lower : forall c d, c ≠ SIGMA -> d ∈ ToLowerFull db c -> fijo db d;
  estable_final : fijo db SIGMA_FINAL;
  estable_minuscula : fijo db SIGMA_MINUSCULA;
  estable_blanco : fijo db 32
}.

(** Separators have no case: the blank is whitespace, and whitespace and
    the signs of [PUNTUACION] are their own lowercase forms.  The Unicode
    character database has this property. *)
Record ucd_separadores (db : ucd) : Prop := mkSeparadores {
  separadores_blanco : IsWhitespace db 32 = true;
  separadores_espacio : forall c, IsWhitespace db c = true -> fijo db c;
  separadores_signo : forall c, c ∈ PUNTUACION_u -> ToLowerFull db c = [c]
}.

(** A database whose entries for U+0000..U+00FF are those of the tables
    [char_lower], [char_isalpha], [char_isspace] and [char_isupper]. *)
Record ucd_latin1 (db : ucd) : Prop := mkLatin1 {
  latin1_lower : forall a, ToLowerFull db (code a) = [code (char_lower a)];
  latin1_alpha : forall a, IsAlpha db (code a) = char_isalpha a;
  latin1_space : forall a, IsWhitespace db (code a) = char_isspace a;
  latin1_upper : forall a, IsUppercase db (code a) = char_isupper a
}.

(** The entries of CPython 3 (Unicode 14) for U+0000..U+00FF, for the Greek
    letters U+0391, U+03A3, U+03B1, U+03C2 and U+03C3, and for U+2102, the
    double-struck capital C: an uppercase letter with no lowercase form.
    Any other code point is entered as an unassigned one is: no letter, no
    case, no whitespace, its own lowercase form. *)
Definition ucd_ejemplo : ucd :=
  {| ToLowerFull c :=
       if (c <? 256)%N then [code (char_lower (ascii_of_N c))]
       else if (c =? 913)%N then [945%N]
       else if (c =? 931)%N then [963%N]
       else [c];
     IsCased c :=
       if (c <? 256)%N then char_isalpha (ascii_of_N c)
       else bool_decide (c ∈ [913; 931; 945; 962; 963; 8450]%N);
     IsCaseIgnorable c :=
       bool_decide
         (c ∈ [39; 46; 58; 94; 96; 168; 173; 175; 180; 183; 184]%N);
     IsAlpha c :=
       if (c <? 256)%N then char_isalpha (ascii_of_N c)
       else bool_decide (c ∈ [913; 931; 945; 962; 963; 8450]%N);
     IsWhitespace c := (c <? 256)%N && char_isspace (ascii_of_N c);
     IsUppercase c :=
       if (c <? 256)%N then char_isupper (ascii_of_N c)
       else bool_decide (c ∈ [913; 931; 8450]%N) |}.

(* ===================================================================== *)
(** * Properties *)
(* ===================================================================== *)

Example normalizar_hola_mundo :
  normalizar_texto (String "161" "Hola, Mundo!") = ["hola"; "mundo"].
Proof. vm_compute. reflexivity. Qed.

Example normalizar_el_gato :
  normalizar_texto "el gato come pescado" = ["gato"; "come"; "pescado"].
Proof. vm_compute. reflexivity. Qed.

Example normalizar_stop_word : normalizar_texto "el" = [].
Proof. vm_compute. reflexivity. Qed.

(** ** Characters *)

(** A property of all 256 code points is settled by running it on each. *)
Ltac por_casos c :=
  destruct c as [[] [] [] [] [] [] [] []]; vm_compute; try reflexivity;
  try discriminate; auto.

Lemma char_lower_no_upper c : char_isupper (char_lower c) = false.
Proof. por_casos c. Qed.

Lemma char_lower_fixed c : char_isupper c = false -> char_lower c = c.
Proof. unfold char_lower. intros ->. reflexivity. Qed.

Lemma char_alpha_no_space c : char_isalpha c = true -> char_isspace c = false.
Proof. por_casos c. Qed.

Lemma char_alpha_no_signo c :
  char_isalpha c = true -> contains c PUNTUACION = false.
Proof. por_casos c. Qed.

Lemma ascii_eqb_sym (a b : ascii) : Ascii.eqb a b = Ascii.eqb b a.
Proof.
  destruct (Ascii.eqb_spec a b) as [->|Hne].
  - symmetry. apply Ascii.eqb_refl.
  - symmetry. apply Ascii.eqb_neq. congruence.
Qed.

(** ** Strings *)

Section AllChars.
Variable P : ascii -> bool.

Lemma all_chars_app s t :
  all_chars P (s +:+ t) = all_chars P s && all_chars P t.
Proof.
  induction s as [|c s IH]; simpl; [reflexivity|].
  rewrite IH. apply andb_assoc.
Qed.

Lemma all_chars_replace i j s :
  P j = true -> all_chars P s = true -> all_chars P (replace i j s) = true.
Proof.
  intros Hj. induction s as [|c s IH]; simpl; [reflexivity|].
  intros [Hc Hs]%andb_prop. rewrite (IH Hs), andb_true_r.
  destruct (Ascii.eqb c i); assumption.
Qed.

Lemma all_chars_quitar_signo i s :
  P " "%char = true -> all_chars P s = true ->
  all_chars P (quitar_signo s i) = true.
Proof.
  intros Hsp Hs. unfold quitar_signo.
  destruct (contains i s); [apply all_chars_replace|]; assumption.
Qed.

Lemma all_chars_fold_quitar l s :
  P " "%char = true -> all_chars P s = true ->
  all_chars P (fold_left quitar_signo l s) = true.
Proof.
  intros Hsp. revert s.
  induction l as [|i l IH]; simpl; intros s Hs; [assumption|].
  apply IH, all_chars_quitar_signo; assumption.
Qed.

Lemma all_chars_emit cur :
  all_chars P cur = true -> Forall (fun w => all_chars P w = true) (emit cur).
Proof.
  intros H. destruct cur; simpl; [constructor|].
  constructor; [exact H|constructor].
Qed.

Lemma all_chars_split_from s : forall cur,
  all_chars P cur = true -> all_chars P s = true ->
  Forall (fun w => all_chars P w = true) (split_from cur s).
Proof.
  induction s as [|c s IH]; simpl; intros cur Hcur Hs.
  - apply all_chars_emit, Hcur.
  - apply andb_prop in Hs as [Hc Hs].
    destruct (char_isspace c).
    + apply Forall_app. split; [apply all_chars_emit, Hcur|].
      apply IH; [reflexivity|exact Hs].
    + apply IH; [|exact Hs].
      rewrite all_chars_app, Hcur. simpl. rewrite Hc. reflexivity.
Qed.
End AllChars.

Lemma all_chars_lower s : all_chars no_upper (lower s) = true.
Proof.
  induction s as [|c s IH]; simpl; [reflexivity|].
  unfold no_upper at 1. rewrite char_lower_no_upper, IH. reflexivity.
Qed.

Lemma lower_fixed s : all_chars no_upper s = true -> lower s = s.
Proof.
  induction s as [|c s IH]; simpl; [reflexivity|].
  intros [Hc Hs]%andb_prop. rewrite (IH Hs).
  apply negb_true_iff in Hc. rewrite (char_lower_fixed _ Hc). reflexivity.
Qed.

(** The words of the split are made of characters of the lowered text, or
    of the blank that took the place of a sign. *)
Lemma split_quitar_lower_no_upper texto :
  Forall (fun w => all_chars no_upper w = true)
         (split (quitar_puntuacion (lower texto))).
Proof.
  apply all_chars_split_from; [reflexivity|].
  apply all_chars_fold_quitar; [reflexivity|apply all_chars_lower].
Qed.

(** The filtering loop is a [filter]. *)
Lemma fold_left_append_filter {A} (f : A -> bool) (l acc : list A) :
  fold_left (fun filtrado p => if f p then (filtrado ++ [p])%list else filtrado)
            l acc
  = (acc ++ List.filter f l)%list.
Proof.
  revert acc. induction l as [|x l IH]; simpl; intros acc.
  - symmetry. apply app_nil_r.
  - rewrite IH. destruct (f x); [|reflexivity].
    rewrite <- app_assoc. reflexivity.
Qed.

Lemma normalizar_texto_filter texto :
  normalizar_texto texto
  = List.filter es_indexable (split (quitar_puntuacion (lower texto))).
Proof.
  unfold normalizar_texto.
  generalize (split (quitar_puntuacion (lower texto))). intros palabras.
  rewrite fold_left_append_filter. reflexivity.
Qed.

Lemma normalizar_texto_elem texto p :
  p ∈ normalizar_texto texto ->
  es_indexable p = true ∧ all_chars no_upper p = true.
Proof.
  rewrite normalizar_texto_filter, list_elem_of_In, filter_In.
  intros [Hin Hidx]. split; [exact Hidx|].
  pose proof (split_quitar_lower_no_upper texto) as HF.
  rewrite Forall_forall in HF. apply HF, list_elem_of_In, Hin.
Qed.

(** On a text in U+0000..U+00FF every word returned by [normalizar_texto]
    is lowercase, made of alphabetic characters only, and is not one of
    [STOP_WORDS]. *)
Lemma normalizar_texto_tokens_latin1 (texto : string) :
  Forall (fun p => is_lowercase p ∧ isalpha p = true ∧ p ∉ STOP_WORDS)
         (normalizar_texto texto).
Proof.
  apply Forall_forall. intros p Hp.
  apply normalizar_texto_elem in Hp as [Hidx Hlow].
  unfold es_indexable in Hidx. apply andb_prop in Hidx as [Hstop Halpha].
  apply bool_decide_eq_true_1 in Hstop.
  repeat split; [apply lower_fixed| | |]; assumption.
Qed.

(** ** A word of a normalised text normalises to itself *)

Lemma contains_list_ascii i s :
  In i (list_ascii_of_string s) -> contains i s = true.
Proof.
  induction s as [|c s IH]; simpl; [tauto|].
  intros [->|Hin].
  - rewrite Ascii.eqb_refl. reflexivity.
  - rewrite (IH Hin). apply orb_true_r.
Qed.

Lemma contains_alpha_signo i p :
  all_chars char_isalpha p = true -> contains i PUNTUACION = true ->
  contains i p = false.
Proof.
  intros Hp Hi. induction p as [|c p IH]; simpl; [reflexivity|].
  simpl in Hp. apply andb_prop in Hp as [Hc Hp].
  rewrite (IH Hp), orb_false_r.
  destruct (Ascii.eqb_spec c i) as [->|]; [|reflexivity].
  rewrite (char_alpha_no_signo _ Hc) in Hi. discriminate.
Qed.

Lemma fold_quitar_signo_alpha l p :
  all_chars char_isalpha p = true ->
  (forall i, In i l -> contains i PUNTUACION = true) ->
  fold_left quitar_signo l p = p.
Proof.
  intros Hp. induction l as [|i l IH]; simpl; intros Hl; [reflexivity|].
  unfold quitar_signo at 2.
  rewrite (contains_alpha_signo i p Hp); [|apply Hl; left; reflexivity].
  apply IH. intros j Hj. apply Hl. right. exact Hj.
Qed.

Lemma quitar_puntuacion_alpha p :
  all_chars char_isalpha p = true -> quitar_puntuacion p = p.
Proof.
  intros Hp. unfold quitar_puntuacion.
  apply fold_quitar_signo_alpha; [exact Hp|].
  intros i. apply contains_list_ascii.
Qed.

Lemma append_cons c s t : String c s +:+ t = String c (s +:+ t).
Proof. reflexivity. Qed.

Lemma append_empty_r s : s +:+ EmptyString = s.
Proof.
  induction s as [|c s IH]; [reflexivity|].
  rewrite append_cons, IH. reflexivity.
Qed.

Lemma append_snoc s c t : (s +:+ String c EmptyString) +:+ t = s +:+ String c t.
Proof.
  induction s as [|d s IH]; [reflexivity|].
  rewrite !append_cons, IH. reflexivity.
Qed.

Lemma split_from_alpha s : forall cur,
  all_chars char_isalpha s = true -> split_from cur s = emit (cur +:+ s).
Proof.
  induction s as [|c s IH]; simpl; intros cur Hs.
  - rewrite append_empty_r. reflexivity.
  - apply andb_prop in Hs as [Hc Hs].
    rewrite (char_alpha_no_space _ Hc), (IH _ Hs), append_snoc. reflexivity.
Qed.

Lemma isalpha_all_chars p :
  isalpha p = true -> all_chars char_isalpha p = true ∧ p <> EmptyString.
Proof. destruct p; simpl; [discriminate|]. intros H. split; [exact H|discriminate]. Qed.

Lemma normalizar_texto_palabra p :
  es_indexable p = true -> all_chars no_upper p = true ->
  normalizar_texto p = [p].
Proof.
  intros Hidx Hlow. rewrite normalizar_texto_filter.
  pose proof Hidx as Hidx'. unfold es_indexable in Hidx'.
  apply andb_prop in Hidx' as [_ Halpha].
  apply isalpha_all_chars in Halpha as [Hall Hne].
  rewrite (lower_fixed _ Hlow), (quitar_puntuacion_alpha _ Hall).
  unfold split. rewrite (split_from_alpha _ _ Hall).
  change (EmptyString +:+ p) with p.
  destruct p as [|c p]; [congruence|].
  cbn [emit List.filter]. rewrite Hidx. reflexivity.
Qed.

Lemma normalizar_texto_idem texto p :
  p ∈ normalizar_texto texto -> normalizar_texto p = [p].
Proof.
  intros [Hidx Hlow]%normalizar_texto_elem.
  apply normalizar_texto_palabra; assumption.
Qed.

(** ** The monad *)

Lemma bind_ok {A B} (m : M A) (k : A -> M B) st a st' :
  m st = (inr a, st') -> bind m k st = k a st'.
Proof. unfold bind. intros ->. reflexivity. Qed.

Lemma for_each_fold {A} (body : A -> M unit) (f : state -> A -> state) xs :
  (forall x st, body x st = (inr tt, f st x)) ->
  forall st, for_each xs body st = (inr tt, fold_left f xs st).
Proof.
  intros Hbody. induction xs as [|x xs IH]; intros st; [reflexivity|].
  cbn [for_each fold_left]. rewrite (bind_ok _ _ _ _ _ (Hbody x st)). apply IH.
Qed.

(** ** Set objects *)

Lemma members_alloc h s l : l < length h -> members (h ++ [s]) l = members h l.
Proof. intros Hl. unfold members. rewrite lookup_app_l by exact Hl. reflexivity. Qed.

Lemma members_alloc_empty h l : members (h ++ [∅]) l = members h l.
Proof.
  destruct (decide (l < length h)) as [Hl|Hl]; [apply members_alloc, Hl|].
  unfold members. rewrite (lookup_ge_None_2 h l) by lia.
  rewrite lookup_app_r by lia.
  destruct (l - length h) as [|n]; reflexivity.
Qed.

Lemma members_new h s : members (h ++ [s]) (length h) = s.
Proof.
  unfold members. rewrite lookup_app_r by lia.
  rewrite Nat.sub_diag. reflexivity.
Qed.

Lemma alter_new (f : gset string -> gset string) h s :
  alter f (length h) (h ++ [s]) = h ++ [f s].
Proof.
  rewrite alter_app_r_alt by lia. rewrite Nat.sub_diag. reflexivity.
Qed.

(** ** The loops of the index builder *)

Lemma indexar_palabra_paso url p st :
  indexar_palabra url p st = (inr tt, paso url st p).
Proof.
  unfold indexar_palabra, paso, bind, dict_contains, dict_get, dict_setitem,
    set_new, set_add, ret.
  destruct (dict st !! p) as [l|] eqn:Hp; cbn.
  - rewrite Hp. reflexivity.
  - rewrite lookup_insert_eq. cbn.
    rewrite alter_new, (left_id_L ∅ (∪)). reflexivity.
Qed.

Lemma indexar_palabra_top_paso url p st :
  indexar_palabra_top url p st = (inr tt, paso url st p).
Proof.
  unfold indexar_palabra_top, paso, bind, dict_contains, dict_getitem,
    dict_setitem, set_new, set_add, ret.
  destruct (dict st !! p) as [l|] eqn:Hp; cbn.
  - rewrite Hp. reflexivity.
  - rewrite lookup_insert_eq. cbn.
    rewrite alter_new, (left_id_L ∅ (∪)). reflexivity.
Qed.

Lemma procesar_url_en_indice_todas url texto st :
  procesar_url_en_indice url texto st
  = (inr tt, indexar_todas url (normalizar_texto texto) st).
Proof.
  unfold procesar_url_en_indice, indexar_todas.
  apply for_each_fold. intros p st'. apply indexar_palabra_paso.
Qed.

Lemma top_palabras_de_map tuplas : top_palabras_de tuplas = tuplas.*1.
Proof.
  unfold top_palabras_de.
  enough (forall acc,
    fold_left (fun top_palabras (tupla : string * nat) =>
                 (top_palabras ++ [tupla.1])%list) tuplas acc
    = (acc ++ tuplas.*1)%list) as H by exact (H []).
  induction tuplas as [|t r IH]; intros acc; cbn.
  - symmetry. apply app_nil_r.
  - rewrite IH, <- app_assoc. reflexivity.
Qed.

Lemma procesar_url_en_indice_top_n_todas url texto top_n st :
  procesar_url_en_indice_top_n url texto top_n st
  = (inr tt,
     indexar_todas url
       (most_common top_n (Counter (normalizar_texto texto))).*1 st).
Proof.
  unfold procesar_url_en_indice_top_n, indexar_todas.
  rewrite top_palabras_de_map.
  apply for_each_fold. intros p st'. apply indexar_palabra_top_paso.
Qed.

Lemma estado_procesar url texto st :
  estado (procesar_url_en_indice url texto) st
  = indexar_todas url (normalizar_texto texto) st.
Proof. unfold estado. rewrite procesar_url_en_indice_todas. reflexivity. Qed.

Lemma estado_procesar_top_n url texto top_n st :
  estado (procesar_url_en_indice_top_n url texto top_n) st
  = indexar_todas url
      (most_common top_n (Counter (normalizar_texto texto))).*1 st.
Proof. unfold estado. rewrite procesar_url_en_indice_top_n_todas. reflexivity. Qed.

(** ** One round of the loop *)

Lemma paso_heap_ok url st p : heap_ok st -> heap_ok (paso url st p).
Proof.
  unfold heap_ok, paso. intros Hok.
  destruct (dict st !! p) as [l|] eqn:Hp; cbn.
  - intros k l' Hk. rewrite length_alter. exact (Hok k l' Hk).
  - rewrite length_app. cbn. apply map_Forall_insert_2; [lia|].
    intros k l' Hk. specialize (Hok k l' Hk). cbn in Hok. lia.
Qed.

Lemma indexar_todas_heap_ok url ws : forall st,
  heap_ok st -> heap_ok (indexar_todas url ws st).
Proof.
  induction ws as [|p ws IH]; intros st Hok; [exact Hok|].
  apply IH, paso_heap_ok, Hok.
Qed.

Lemma paso_tiene url st p : heap_ok st -> tiene url (paso url st p) p.
Proof.
  unfold heap_ok, paso, tiene. intros Hok.
  destruct (dict st !! p) as [l|] eqn:Hp; cbn.
  - destruct (lookup_lt_is_Some_2 (heap st) l (Hok p l Hp)) as [s Hs].
    exists l, (s ∪ {[url]}). split; [exact Hp|]. split; [|set_solver].
    rewrite list_lookup_alter_eq, Hs. reflexivity.
  - exists (length (heap st)), {[url]}.
    split; [apply lookup_insert_eq|]. split; [|set_solver].
    rewrite lookup_app_r by lia. rewrite Nat.sub_diag. reflexivity.
Qed.

Lemma paso_tiene_mono url st p t : tiene url st t -> tiene url (paso url st p) t.
Proof.
  unfold paso, tiene. intros (l & s & Ht & Hl & Hin).
  destruct (dict st !! p) as [lp|] eqn:Hp; cbn.
  - destruct (decide (lp = l)) as [->|Hne].
    + exists l, (s ∪ {[url]}). split; [exact Ht|]. split; [|set_solver].
      rewrite list_lookup_alter_eq, Hl. reflexivity.
    + exists l, s. split; [exact Ht|]. split; [|exact Hin].
      rewrite list_lookup_alter_ne by exact Hne. exact Hl.
  - exists l, s. split; [|split; [|exact Hin]].
    + rewrite lookup_insert_ne; [exact Ht|]. intros ->. congruence.
    + apply lookup_app_l_Some, Hl.
Qed.

Lemma indexar_todas_tiene_mono url ws t : forall st,
  tiene url st t -> tiene url (indexar_todas url ws st) t.
Proof.
  induction ws as [|p ws IH]; intros st Ht; [exact Ht|].
  apply IH, paso_tiene_mono, Ht.
Qed.

Lemma indexar_todas_tiene url ws : forall st,
  heap_ok st -> forall t, t ∈ ws -> tiene url (indexar_todas url ws st) t.
Proof.
  induction ws as [|p ws IH]; intros st Hok t Ht.
  - apply elem_of_nil in Ht. contradiction.
  - cbn. apply elem_of_cons in Ht as [->|Ht].
    + apply indexar_todas_tiene_mono, paso_tiene, Hok.
    + apply IH; [apply paso_heap_ok, Hok|exact Ht].
Qed.

Lemma tiene_contenido url st p :
  tiene url st p -> exists s, contenido st !! p = Some s ∧ url ∈ s.
Proof.
  intros (l & s & Hp & Hl & Hin). exists s. split; [|exact Hin].
  unfold contenido, members. rewrite lookup_fmap, Hp. cbn. rewrite Hl. reflexivity.
Qed.

(** A word that already has the identifier is left as it is. *)
Lemma alter_fixed (f : gset string -> gset string) (h : list (gset string)) l s :
  h !! l = Some s -> f s = s -> alter f l h = h.
Proof.
  intros Hl Hf. apply list_eq. intros i.
  destruct (decide (l = i)) as [<-|Hne].
  - rewrite list_lookup_alter_eq, Hl. cbn. rewrite Hf. reflexivity.
  - apply list_lookup_alter_ne, Hne.
Qed.

Lemma paso_fixed url st p : tiene url st p -> paso url st p = st.
Proof.
  unfold paso. intros (l & s & Hp & Hl & Hin). rewrite Hp.
  rewrite (alter_fixed _ _ l s Hl)
    by (cbn; rewrite (comm_L (∪));
        apply subseteq_union_1_L, singleton_subseteq_l, Hin).
  destruct st; reflexivity.
Qed.

Lemma indexar_todas_fixed url ws st :
  (forall t, t ∈ ws -> tiene url st t) -> indexar_todas url ws st = st.
Proof.
  induction ws as [|p ws IH]; intros Hall; [reflexivity|].
  cbn. rewrite paso_fixed by (apply Hall; left).
  apply IH. intros t Ht. apply Hall. right. exact Ht.
Qed.

(** ** The query on one word *)

Lemma buscar_palabra_simple_sin_palabras palabra st :
  normalizar_texto palabra = [] ->
  buscar_palabra_simple palabra st = (inl IndexError, st).
Proof. unfold buscar_palabra_simple. intros ->. reflexivity. Qed.

(** C1. On a word whose normalisation is empty (the stop word "el", the
    empty string, a string of signs) [buscar_palabra_simple] does not return
    the empty set: it raises [IndexError], whatever the index. *)
Theorem C1_buscar_palabra_simple_raises (st : state) :
  buscar_palabra_simple "el" st = (inl IndexError, st)
  ∧ buscar_palabra_simple "" st = (inl IndexError, st)
  ∧ buscar_palabra_simple "?!" st = (inl IndexError, st).
Proof.
  repeat split; apply buscar_palabra_simple_sin_palabras;
    vm_compute; reflexivity.
Qed.

Lemma heap_ok_vacio h : heap_ok (indice_vacio h).
Proof. apply map_Forall_empty. Qed.

(** No call leaves a reference to an object that was not allocated, so
    every index the program builds meets [heap_ok]. *)
Lemma ejecutar_heap_ok cs : forall st, heap_ok st -> heap_ok (ejecutar cs st).
Proof.
  induction cs as [|c cs IH]; intros st Hok; [exact Hok|].
  apply IH. destruct c as [url texto|url texto top_n]; cbn [ejecutar_llamada].
  - rewrite estado_procesar. apply indexar_todas_heap_ok, Hok.
  - rewrite estado_procesar_top_n. apply indexar_todas_heap_ok, Hok.
Qed.

(** On a given state [heap_ok] is settled by evaluation. *)
Ltac heap_ok_por_calculo :=
  unfold heap_ok; apply (bool_decide_unpack _); vm_compute; exact I.

Lemma heap_ok_ejemplo : heap_ok st_ejemplo.
Proof. apply ejecutar_heap_ok, heap_ok_vacio. Qed.

(** C5. After [procesar_url_en_indice url texto], which returns normally,
    every word of [normalizar_texto texto] is in the index with [url] in its
    posting set. *)
Theorem C5_procesar_url_indexa_todas (url texto : string) (st : state) :
  heap_ok st ->
  resultado_de (procesar_url_en_indice url texto) st = inr tt
  ∧ Forall (fun p =>
      exists s, contenido (estado (procesar_url_en_indice url texto) st) !! p
                = Some s ∧ url ∈ s)
      (normalizar_texto texto).
Proof.
  intros Hok. split.
  - unfold resultado_de. rewrite procesar_url_en_indice_todas. reflexivity.
  - rewrite estado_procesar. apply Forall_forall. intros p Hp.
    apply (tiene_contenido url), indexar_todas_tiene; assumption.
Qed.

Lemma C5_witness :
  resultado_de (procesar_url_en_indice "url3" "El gato ladra.") st_ejemplo
  = inr tt
  ∧ Forall (fun p =>
      exists s,
        contenido (estado (procesar_url_en_indice "url3" "El gato ladra.")
                          st_ejemplo) !! p = Some s ∧ "url3" ∈ s)
      (normalizar_texto "El gato ladra.").
Proof.
  apply (C5_procesar_url_indexa_todas "url3" "El gato ladra." st_ejemplo).
  heap_ok_por_calculo.
Defined.

(** C6. Indexing the same identifier and text a second time changes
    nothing: the state, and so the membership of every posting set, is the
    one the first call left. *)
Theorem C6_procesar_url_idempotente (url texto : string) (st : state) :
  heap_ok st ->
  let una := estado (procesar_url_en_indice url texto) st in
  let dos := estado (procesar_url_en_indice url texto) una in
  resultado_de (procesar_url_en_indice url texto) una = inr tt
  ∧ dos = una
  ∧ contenido dos = contenido una.
Proof.
  intros Hok una dos.
  assert (dos = una) as Heq.
  { unfold dos, una. rewrite !estado_procesar.
    apply indexar_todas_fixed. intros t Ht.
    apply indexar_todas_tiene; assumption. }
  split; [|split; [exact Heq|rewrite Heq; reflexivity]].
  unfold resultado_de. rewrite procesar_url_en_indice_todas. reflexivity.
Qed.

Lemma C6_witness :
  let una :=
    estado (procesar_url_en_indice "url3" "El gato ladra.") st_ejemplo in
  let dos := estado (procesar_url_en_indice "url3" "El gato ladra.") una in
  resultado_de (procesar_url_en_indice "url3" "El gato ladra.") una = inr tt
  ∧ dos = una
  ∧ contenido dos = contenido una.
Proof.
  apply (C6_procesar_url_idempotente "url3" "El gato ladra." st_ejemplo).
  heap_ok_por_calculo.
Defined.

(** ** The index after a loop, in terms of the index before it *)

Lemma members_alter_add (h : list (gset string)) url l l' :
  l < length h ->
  members (alter (fun s => s ∪ {[url]}) l h) l'
  = members h l' ∪ (if decide (l = l') then {[url]} else ∅).
Proof.
  intros Hl. unfold members. destruct (decide (l = l')) as [<-|Hne].
  - rewrite list_lookup_alter_eq.
    destruct (lookup_lt_is_Some_2 h l Hl) as [s ->]. reflexivity.
  - rewrite list_lookup_alter_ne by exact Hne.
    rewrite (right_id_L ∅ (∪)). reflexivity.
Qed.

Lemma tocado_cons st p r l :
  tocado st (p :: r) l <-> dict st !! p = Some l ∨ tocado st r l.
Proof. unfold tocado. apply Exists_cons. Qed.

Lemma tras_indexar_nil url st k : tras_indexar url [] st k = contenido st !! k.
Proof.
  unfold tras_indexar, contenido. rewrite lookup_fmap.
  destruct (dict st !! k) as [l|]; cbn.
  - rewrite decide_False by (unfold tocado; rewrite Exists_nil; tauto).
    rewrite (right_id_L ∅ (∪)). reflexivity.
  - rewrite decide_False by apply not_elem_of_nil. reflexivity.
Qed.

Lemma tras_indexar_paso url p r st k :
  heap_ok st ->
  tras_indexar url r (paso url st p) k = tras_indexar url (p :: r) st k.
Proof.
  intros Hok. unfold tras_indexar, paso.
  destruct (dict st !! p) as [lp|] eqn:Hp; cbn [dict heap].
  - (* the word is in the dictionary: its object grows *)
    destruct (dict st !! k) as [l|] eqn:Hk.
    + rewrite members_alter_add by exact (Hok p lp Hp). f_equal.
      rewrite (decide_ext (tocado st (p :: r) l)
                          (lp = l ∨ tocado st r l))
        by (rewrite tocado_cons, Hp; split; intros [H|H]; auto; left; congruence).
      unfold tocado. cbn [dict].
      repeat case_decide; try set_solver; exfalso; tauto.
    + apply decide_ext. rewrite elem_of_cons.
      split; [auto|]. intros [->|H]; [congruence|exact H].
  - (* a new word: a new object, nothing else moves *)
    destruct (decide (k = p)) as [->|Hne].
    + rewrite lookup_insert_eq, Hp, members_new.
      rewrite (decide_True (P := p ∈ p :: r)) by (left).
      f_equal. case_decide; set_solver.
    + rewrite lookup_insert_ne by congruence.
      destruct (dict st !! k) as [l|] eqn:Hk.
      * pose proof (Hok k l Hk) as Hl. cbn in Hl.
        rewrite members_alloc by exact Hl. do 2 f_equal.
        apply decide_ext. rewrite tocado_cons, Hp. unfold tocado.
        rewrite !Exists_exists. cbn [dict].
        split.
        -- intros (t & Ht & Htl). right. exists t. split; [exact Ht|].
           destruct (decide (t = p)) as [->|Htp].
           ++ rewrite lookup_insert_eq in Htl. inversion Htl. lia.
           ++ rewrite lookup_insert_ne in Htl by congruence. exact Htl.
        -- intros [H|(t & Ht & Htl)]; [discriminate|].
           exists t. split; [exact Ht|].
           rewrite lookup_insert_ne by (intros ->; congruence). exact Htl.
      * apply decide_ext. rewrite elem_of_cons.
        split; [auto|]. intros [H|H]; [congruence|exact H].
Qed.

Lemma indexar_todas_contenido url ws : forall st k,
  heap_ok st ->
  contenido (indexar_todas url ws st) !! k = tras_indexar url ws st k.
Proof.
  induction ws as [|p r IH]; intros st k Hok.
  - symmetry. apply tras_indexar_nil.
  - cbn [indexar_todas fold_left].
    change (fold_left (paso url) r (paso url st p))
      with (indexar_todas url r (paso url st p)).
    rewrite IH by (apply paso_heap_ok, Hok).
    apply tras_indexar_paso, Hok.
Qed.

(** Only the set of words matters, not their order or number. *)
Lemma tras_indexar_ext url ws ws' st k :
  (forall x, x ∈ ws <-> x ∈ ws') ->
  tras_indexar url ws st k = tras_indexar url ws' st k.
Proof.
  intros Hext. unfold tras_indexar.
  destruct (dict st !! k) as [l|].
  - do 2 f_equal. apply decide_ext. unfold tocado.
    rewrite !Exists_exists. split; intros (t & Ht & Htl); exists t;
      (split; [apply Hext, Ht|exact Htl]).
  - apply decide_ext, Hext.
Qed.

(** ** Counting the words of a text *)

Lemma Counter_snoc ws p : Counter (ws ++ [p]) = counter_incr p (Counter ws).
Proof. unfold Counter. rewrite fold_left_app. reflexivity. Qed.

Lemma distintas_snoc ws p :
  distintas (ws ++ [p])
  = if decide (p ∈ distintas ws) then distintas ws else distintas ws ++ [p].
Proof. unfold distintas. rewrite fold_left_app. reflexivity. Qed.

Lemma distintas_elem ws x : x ∈ distintas ws <-> x ∈ ws.
Proof.
  induction ws as [|p ws IH] using rev_ind; [reflexivity|].
  rewrite distintas_snoc. case_decide; set_solver.
Qed.

Lemma distintas_NoDup ws : NoDup (distintas ws).
Proof.
  induction ws as [|p ws IH] using rev_ind; [constructor|].
  rewrite distintas_snoc. case_decide; [exact IH|].
  apply NoDup_app. split; [exact IH|]. split; [|apply NoDup_singleton].
  intros x Hx ->%list_elem_of_singleton. contradiction.
Qed.

Lemma cuenta_snoc w ws p :
  cuenta w (ws ++ [p]) = cuenta w ws + (if String.eqb w p then 1 else 0).
Proof.
  unfold cuenta. rewrite List.filter_app, length_app. cbn.
  destruct (String.eqb w p); reflexivity.
Qed.

Lemma cuenta_absent w ws : w ∉ ws -> cuenta w ws = 0.
Proof.
  unfold cuenta. induction ws as [|x ws IH]; intros Hw; [reflexivity|].
  cbn. destruct (String.eqb_spec w x) as [->|Hne]; [set_solver|].
  apply IH. set_solver.
Qed.

Lemma posicion_lt w ws : w ∈ ws -> posicion w ws < length ws.
Proof.
  induction ws as [|x ws IH]; intros Hw; [set_solver|].
  cbn. destruct (String.eqb_spec x w) as [->|Hne]; [lia|].
  apply elem_of_cons in Hw as [->|Hw]; [congruence|].
  specialize (IH Hw). lia.
Qed.

Lemma posicion_snoc_old w ws p :
  w ∈ ws -> posicion w (ws ++ [p]) = posicion w ws.
Proof.
  induction ws as [|x ws IH]; intros Hw; [set_solver|].
  cbn. destruct (String.eqb_spec x w) as [->|Hne]; [reflexivity|].
  apply elem_of_cons in Hw as [->|Hw]; [congruence|].
  rewrite (IH Hw). reflexivity.
Qed.

Lemma posicion_snoc_new ws p : p ∉ ws -> posicion p (ws ++ [p]) = length ws.
Proof.
  induction ws as [|x ws IH]; intros Hp; cbn.
  - rewrite String.eqb_refl. reflexivity.
  - destruct (String.eqb_spec x p) as [->|Hne]; [set_solver|].
    rewrite IH by set_solver. reflexivity.
Qed.

(** A sorted list stays sorted under a map that respects the order on the
    members of the list. *)
Lemma StronglySorted_fmap_elem {A B} (R : relation A) (R' : relation B)
    (f : A -> B) (l : list A) :
  (forall x y, x ∈ l -> y ∈ l -> R x y -> R' (f x) (f y)) ->
  StronglySorted R l -> StronglySorted R' (f <$> l).
Proof.
  intros Himp Hs. induction Hs as [|x l Hs IH Hx]; csimpl; constructor.
  - apply IH. intros a b Ha Hb. apply Himp; right; assumption.
  - rewrite Forall_fmap. rewrite Forall_forall in Hx |- *.
    intros y Hy. cbn. apply Himp; [left|right; exact Hy|apply Hx, Hy].
Qed.

Lemma distintas_sorted ws :
  StronglySorted (fun a b => posicion a ws < posicion b ws) (distintas ws).
Proof.
  induction ws as [|p ws IH] using rev_ind; [constructor|].
  assert (StronglySorted
            (fun a b => posicion a (ws ++ [p]) < posicion b (ws ++ [p]))
            (distintas ws)) as Hold.
  { rewrite <- (list_fmap_id (distintas ws)).
    refine (StronglySorted_fmap_elem _ _ id _ _ IH).
    intros a b Ha Hb Hab. unfold id.
    apply (proj1 (distintas_elem _ _)) in Ha, Hb.
    rewrite (posicion_snoc_old a), (posicion_snoc_old b) by assumption.
    exact Hab. }
  rewrite distintas_snoc. case_decide as Hp; [exact Hold|].
  apply StronglySorted_app_2; [|exact Hold|repeat constructor].
  intros a b Ha ->%list_elem_of_singleton.
  apply (proj1 (distintas_elem _ _)) in Ha.
  rewrite distintas_elem in Hp.
  rewrite (posicion_snoc_old a) by exact Ha.
  rewrite posicion_snoc_new by exact Hp. apply posicion_lt, Ha.
Qed.

(** Incrementing the count of a key, on a list of items with distinct
    keys whose counts are given by [g]. *)
Lemma counter_incr_old (g : string -> nat) p D :
  NoDup D -> p ∈ D ->
  counter_incr p ((fun w => (w, g w)) <$> D)
  = (fun w => (w, g w + (if String.eqb w p then 1 else 0))) <$> D.
Proof.
  induction 1 as [|d D Hd HD IH]; intros Hp; [set_solver|].
  csimpl. destruct (String.eqb_spec d p) as [->|Hne].
  - rewrite Nat.add_1_r. f_equal. apply list_fmap_ext.
    intros i w Hw. destruct (String.eqb_spec w p) as [->|_].
    + exfalso. apply Hd. eapply list_elem_of_lookup_2, Hw.
    + rewrite Nat.add_0_r. reflexivity.
  - rewrite Nat.add_0_r. f_equal. apply IH. set_solver.
Qed.

Lemma counter_incr_new (g : string -> nat) p D :
  p ∉ D ->
  counter_incr p ((fun w => (w, g w)) <$> D)
  = ((fun w => (w, g w)) <$> D) ++ [(p, 1)].
Proof.
  induction D as [|d D IH]; intros Hp; [reflexivity|].
  csimpl. destruct (String.eqb_spec d p) as [->|Hne]; [set_solver|].
  rewrite IH by set_solver. reflexivity.
Qed.

(** The items of the counter: each distinct word with its number of
    occurrences, in the order of first appearance. *)
Lemma Counter_distintas ws :
  Counter ws = (fun w => (w, cuenta w ws)) <$> distintas ws.
Proof.
  induction ws as [|p ws IH] using rev_ind; [reflexivity|].
  rewrite Counter_snoc, IH, distintas_snoc. case_decide as Hp.
  - rewrite counter_incr_old by (apply distintas_NoDup || exact Hp).
    apply list_fmap_ext. intros i w _. rewrite cuenta_snoc. reflexivity.
  - rewrite counter_incr_new by exact Hp. rewrite fmap_app. csimpl.
    f_equal.
    + apply list_fmap_ext. intros i w Hw. rewrite cuenta_snoc.
      destruct (String.eqb_spec w p) as [->|_]; [|rewrite Nat.add_0_r; reflexivity].
      exfalso. apply Hp. eapply list_elem_of_lookup_2, Hw.
    + rewrite cuenta_snoc, String.eqb_refl, cuenta_absent; [reflexivity|].
      rewrite <- distintas_elem. exact Hp.
Qed.

(** ** The stable sort by decreasing count *)

Lemma insertar_desc_perm x l : insertar_desc x l ≡ₚ x :: l.
Proof.
  induction l as [|y l IH]; cbn [insertar_desc]; [reflexivity|].
  destruct (x.2 <? y.2)%nat; [|reflexivity].
  rewrite IH. apply Permutation_swap.
Qed.

Lemma sorted_desc_perm l : sorted_desc l ≡ₚ l.
Proof.
  induction l as [|x l IH]; cbn [sorted_desc]; [reflexivity|].
  rewrite insertar_desc_perm, IH. reflexivity.
Qed.

Section Estable.
(** [antes] is the order the items come in. *)
Variable antes : relation (string * nat).

Local Abbreviation orden := (orden_desc antes).

Lemma insertar_desc_sorted x l :
  Forall (antes x) l -> StronglySorted orden l ->
  StronglySorted orden (insertar_desc x l).
Proof.
  intros Hx Hs. induction Hs as [|y l Hs IH Hy]; cbn [insertar_desc].
  - repeat constructor.
  - apply Forall_cons in Hx as [Hxy Hx].
    destruct (Nat.ltb_spec x.2 y.2) as [Hlt|Hge].
    + constructor; [apply IH, Hx|].
      rewrite insertar_desc_perm. constructor; [left; exact Hlt|exact Hy].
    + constructor; [constructor; assumption|].
      assert (orden x y) as Hxy'.
      { unfold orden_desc. destruct (decide (y.2 = x.2)); [right|left]; [auto|lia]. }
      constructor; [exact Hxy'|].
      rewrite Forall_forall in Hx, Hy |- *. intros z Hz.
      specialize (Hx z Hz). specialize (Hy z Hz).
      unfold orden_desc in Hy |- *.
      destruct (decide (z.2 = x.2)); [right; auto|left; lia].
Qed.

Lemma sorted_desc_sorted l :
  StronglySorted antes l -> StronglySorted orden (sorted_desc l).
Proof.
  induction 1 as [|x l Hs IH Hx]; cbn [sorted_desc]; [constructor|].
  apply insertar_desc_sorted; [|exact IH].
  rewrite sorted_desc_perm. exact Hx.
Qed.
End Estable.

(** ** The words [most_common] selects *)

Lemma size_list_to_set_distintas ws :
  size (list_to_set ws : gset string) = length (distintas ws).
Proof.
  rewrite <- (size_list_to_set (C := gset string) (distintas ws))
    by apply distintas_NoDup.
  f_equal. apply set_eq. intros x.
  rewrite !elem_of_list_to_set. symmetry. apply distintas_elem.
Qed.

Lemma sorted_Counter_item ws x :
  x ∈ sorted_desc (Counter ws) -> x.1 ∈ ws ∧ x.2 = cuenta x.1 ws.
Proof.
  rewrite sorted_desc_perm, Counter_distintas, list_elem_of_fmap.
  intros (w & -> & Hw). apply (proj1 (distintas_elem _ _)) in Hw.
  cbn. split; [exact Hw|reflexivity].
Qed.

Lemma claves_sorted_Counter ws x :
  x ∈ (sorted_desc (Counter ws)).*1 <-> x ∈ ws.
Proof.
  rewrite sorted_desc_perm, Counter_distintas, <- list_fmap_compose.
  rewrite list_elem_of_fmap. split.
  - intros (w & -> & Hw). apply (proj1 (distintas_elem _ _)) in Hw. exact Hw.
  - intros Hx. exists x. split; [reflexivity|]. apply distintas_elem, Hx.
Qed.

Lemma claves_sorted_Counter_sorted ws :
  StronglySorted (precede ws) (sorted_desc (Counter ws)).*1.
Proof.
  apply (StronglySorted_fmap_elem
           (orden_desc (fun x y => posicion x.1 ws < posicion y.1 ws))).
  - intros x y [_ Hx]%sorted_Counter_item [_ Hy]%sorted_Counter_item.
    unfold orden_desc, precede. rewrite Hx, Hy. tauto.
  - apply sorted_desc_sorted. rewrite Counter_distintas.
    apply (StronglySorted_fmap_elem
             (fun a b => posicion a ws < posicion b ws));
      [|apply distintas_sorted].
    intros a b _ _ Hab. exact Hab.
Qed.

Lemma most_common_seleccion top_n ws :
  es_seleccion top_n ws (most_common top_n (Counter ws)).*1.
Proof.
  unfold es_seleccion, most_common. rewrite fmap_take.
  set (claves := (sorted_desc (Counter ws)).*1).
  pose proof (claves_sorted_Counter_sorted ws) as Hs. fold claves in Hs.
  rewrite <- (take_drop (Z.to_nat top_n) claves) in Hs.
  split; [|split; [|split]].
  - rewrite length_take. f_equal. unfold claves.
    rewrite length_fmap, sorted_desc_perm, Counter_distintas, length_fmap.
    symmetry. apply size_list_to_set_distintas.
  - eapply StronglySorted_app_1_l, Hs.
  - intros a Ha. apply claves_sorted_Counter. fold claves.
    rewrite <- (take_drop (Z.to_nat top_n) claves). set_solver.
  - intros a b Ha Hb Hnb.
    apply (StronglySorted_app_1_elem_of _ _ _ _ _ Hs); [exact Ha|].
    apply claves_sorted_Counter in Hb. fold claves in Hb.
    rewrite <- (take_drop (Z.to_nat top_n) claves) in Hb. set_solver.
Qed.

Lemma most_common_todas top_n ws x :
  (Z.of_nat (size (list_to_set ws : gset string)) <= top_n)%Z ->
  x ∈ (most_common top_n (Counter ws)).*1 <-> x ∈ ws.
Proof.
  intros Hn. unfold most_common. rewrite take_ge; [apply claves_sorted_Counter|].
  rewrite sorted_desc_perm, Counter_distintas, length_fmap.
  rewrite <- size_list_to_set_distintas. lia.
Qed.

(** The description of the selection leaves no choice: two lists that fit
    it are the same list. *)
Lemma precede_asim ws a b : precede ws a b -> precede ws b a -> False.
Proof. unfold precede. lia. Qed.

Lemma precede_sorted_NoDup ws sel :
  StronglySorted (precede ws) sel -> NoDup sel.
Proof.
  induction 1 as [|a sel Hs IH Ha]; constructor; [|exact IH].
  intros Hin. rewrite Forall_forall in Ha.
  exact (precede_asim ws a a (Ha a Hin) (Ha a Hin)).
Qed.

Lemma es_seleccion_incl top_n ws s1 s2 :
  es_seleccion top_n ws s1 -> es_seleccion top_n ws s2 ->
  forall x, x ∈ s1 -> x ∈ s2.
Proof.
  intros (Hlen1 & Hs1 & Hws1 & Hsep1) (Hlen2 & Hs2 & Hws2 & Hsep2) x Hx1.
  destruct (decide (x ∈ s2)) as [Hx2|Hx2]; [exact Hx2|exfalso].
  apply elem_of_Permutation in Hx1 as Hperm. destruct Hperm as [k Hk].
  pose proof (precede_sorted_NoDup _ _ Hs1) as Hnd1.
  rewrite Hk in Hnd1. apply NoDup_cons in Hnd1 as [Hxk _].
  assert (s2 ⊆+ k) as Hsub.
  { apply NoDup_submseteq; [eapply precede_sorted_NoDup, Hs2|].
    intros b Hb2. destruct (decide (b ∈ s1)) as [Hb1|Hb1].
    - rewrite Hk in Hb1. apply elem_of_cons in Hb1 as [->|Hb1]; [contradiction|exact Hb1].
    - exfalso. apply (precede_asim ws x b).
      + apply Hsep1; [exact Hx1|apply Hws2, Hb2|exact Hb1].
      + apply Hsep2; [exact Hb2|apply Hws1, Hx1|exact Hx2]. }
  apply submseteq_length in Hsub.
  apply Permutation_length in Hk. cbn in Hk. lia.
Qed.

Lemma es_seleccion_unica top_n ws s1 s2 :
  es_seleccion top_n ws s1 -> es_seleccion top_n ws s2 -> s1 = s2.
Proof.
  intros H1 H2.
  pose proof H1 as (_ & Hs1 & _). pose proof H2 as (_ & Hs2 & _).
  apply (StronglySorted_unique_strong (precede ws)); [|exact Hs1|exact Hs2|].
  - intros a b _ _ Hab Hba. destruct (precede_asim _ _ _ Hab Hba).
  - apply NoDup_Permutation; [eapply precede_sorted_NoDup, Hs1
                             |eapply precede_sorted_NoDup, Hs2|].
    intros x. split; eapply es_seleccion_incl; eassumption.
Qed.

Example most_common_empate :
  top_palabras_de (most_common 2 (Counter (normalizar_texto "b x x c b d x c")))
  = ["x"; "b"].
Proof. vm_compute. reflexivity. Qed.

Example most_common_negativo :
  most_common (-1) (Counter (normalizar_texto "b x x c b d x c")) = [].
Proof. vm_compute. reflexivity. Qed.

(** C3. [procesar_url_en_indice_top_n] returns normally and indexes [url]
    under exactly the words it selects: the up to [top_n] most frequent
    distinct words of the normalised text, most frequent first, a tie going
    to the word that appears first.  The set object of a selected word gains
    [url], a selected word that was not in the index is entered with the
    set of [url] alone, and nothing else changes. *)
Theorem C3_top_n_indexa_seleccion
    (url texto : string) (top_n : Z) (st : state) :
  heap_ok st ->
  let palabras := normalizar_texto texto in
  let sel := top_palabras_de (most_common top_n (Counter palabras)) in
  let st' := estado (procesar_url_en_indice_top_n url texto top_n) st in
  es_seleccion top_n palabras sel
  ∧ resultado_de (procesar_url_en_indice_top_n url texto top_n) st = inr tt
  ∧ forall k, contenido st' !! k = tras_indexar url sel st k.
Proof.
  intros Hok palabras sel st'. unfold sel, st'.
  rewrite top_palabras_de_map. split; [apply most_common_seleccion|]. split.
  - unfold resultado_de. rewrite procesar_url_en_indice_top_n_todas. reflexivity.
  - intros k. rewrite estado_procesar_top_n.
    apply indexar_todas_contenido, Hok.
Qed.

Lemma C3_witness :
  let palabras := normalizar_texto "b x x c b d x c" in
  let sel := top_palabras_de (most_common 2 (Counter palabras)) in
  let st' :=
    estado (procesar_url_en_indice_top_n "url1" "b x x c b d x c" 2)
           st_ejemplo in
  es_seleccion 2 palabras sel
  ∧ resultado_de (procesar_url_en_indice_top_n "url1" "b x x c b d x c" 2)
                 st_ejemplo = inr tt
  ∧ forall k, contenido st' !! k = tras_indexar "url1" sel st_ejemplo k.
Proof.
  apply (C3_top_n_indexa_seleccion "url1" "b x x c b d x c" 2 st_ejemplo).
  heap_ok_por_calculo.
Defined.

(** C4. With [top_n] at least the number of distinct words of the
    normalised text, [procesar_url_en_indice_top_n] leaves the same index
    (the same words with the same posting sets) as
    [procesar_url_en_indice]. *)
Theorem C4_top_n_grande_igual (url texto : string) (top_n : Z) (st : state) :
  heap_ok st ->
  (Z.of_nat (size (list_to_set (normalizar_texto texto) : gset string))
   <= top_n)%Z ->
  resultado_de (procesar_url_en_indice_top_n url texto top_n) st = inr tt
  ∧ resultado_de (procesar_url_en_indice url texto) st = inr tt
  ∧ contenido (estado (procesar_url_en_indice_top_n url texto top_n) st)
    = contenido (estado (procesar_url_en_indice url texto) st).
Proof.
  intros Hok Hn. split; [|split].
  - unfold resultado_de. rewrite procesar_url_en_indice_top_n_todas. reflexivity.
  - unfold resultado_de. rewrite procesar_url_en_indice_todas. reflexivity.
  - apply map_eq. intros k.
    rewrite estado_procesar_top_n, estado_procesar.
    rewrite !indexar_todas_contenido by exact Hok.
    apply tras_indexar_ext. intros x. apply most_common_todas, Hn.
Qed.

Lemma C4_witness :
  resultado_de (procesar_url_en_indice_top_n "url1" "b x x c b d x c" 4)
               st_ejemplo = inr tt
  ∧ resultado_de (procesar_url_en_indice "url1" "b x x c b d x c")
                 st_ejemplo = inr tt
  ∧ contenido (estado (procesar_url_en_indice_top_n "url1" "b x x c b d x c" 4)
                      st_ejemplo)
    = contenido (estado (procesar_url_en_indice "url1" "b x x c b d x c")
                        st_ejemplo).
Proof.
  apply (C4_top_n_grande_igual "url1" "b x x c b d x c" 4 st_ejemplo).
  - heap_ok_por_calculo.
  - vm_compute. discriminate.
Defined.

(** ** Indexes built from the empty one *)

Lemma paso_poblado url st p : poblado st -> poblado (paso url st p).
Proof.
  unfold poblado, paso. intros Hpob.
  destruct (dict st !! p) as [lp|] eqn:Hp; cbn.
  - intros k l Hk. destruct (Hpob k l Hk) as (s & Hl & Hne). cbn in Hl.
    destruct (decide (lp = l)) as [->|Hlp].
    + exists (s ∪ {[url]}). rewrite list_lookup_alter_eq, Hl.
      split; [reflexivity|set_solver].
    + exists s. rewrite list_lookup_alter_ne by exact Hlp. auto.
  - apply map_Forall_insert_2.
    + exists {[url]}. rewrite lookup_app_r by lia. rewrite Nat.sub_diag.
      split; [reflexivity|]. apply non_empty_singleton_L.
    + intros k l Hk. destruct (Hpob k l Hk) as (s & Hl & Hne).
      exists s. split; [apply lookup_app_l_Some, Hl|exact Hne].
Qed.

Lemma indexar_todas_poblado url ws : forall st,
  poblado st -> poblado (indexar_todas url ws st).
Proof.
  induction ws as [|p ws IH]; intros st Hpob; [exact Hpob|].
  apply IH, paso_poblado, Hpob.
Qed.

Lemma ejecutar_poblado cs : forall st, poblado st -> poblado (ejecutar cs st).
Proof.
  induction cs as [|c cs IH]; intros st Hpob; [exact Hpob|].
  apply IH. destruct c as [url texto|url texto top_n]; cbn [ejecutar_llamada].
  - rewrite estado_procesar. apply indexar_todas_poblado, Hpob.
  - rewrite estado_procesar_top_n. apply indexar_todas_poblado, Hpob.
Qed.

(** C9. In an index built from the empty one by calls of
    [procesar_url_en_indice] and [procesar_url_en_indice_top_n], in any
    number and order, every word that is a key has a posting set with at
    least one member, and the members of a posting set are pairwise
    distinct. *)
Theorem C9_indice_sin_conjuntos_vacios
    (cs : list llamada) (h : list (gset string)) (k : string) (s : gset string) :
  contenido (ejecutar cs (indice_vacio h)) !! k = Some s ->
  s <> ∅ ∧ NoDup (elements s).
Proof.
  intros Hk. split; [|apply NoDup_elements].
  unfold contenido in Hk. rewrite lookup_fmap in Hk.
  destruct (dict (ejecutar cs (indice_vacio h)) !! k) as [l|] eqn:Hl;
    [|discriminate].
  assert (poblado (indice_vacio h)) as H0 by apply map_Forall_empty.
  destruct (ejecutar_poblado cs _ H0 k l Hl) as (s' & Hs' & Hne).
  cbn in Hk, Hs'. unfold members in Hk. rewrite Hs' in Hk.
  cbn in Hk. congruence.
Qed.

Lemma C9_witness :
  ({[ "url1"; "url2" ]} : gset string) <> ∅
  ∧ NoDup (elements ({[ "url1"; "url2" ]} : gset string)).
Proof.
  apply (C9_indice_sin_conjuntos_vacios
           [Indexar "url1" "el gato come pescado";
            IndexarTopN "url2" "el perro come carne" 2] [] "come").
  vm_compute. reflexivity.
Defined.

(** ** The queries leave the index as it is *)

Lemma extiende_refl st : extiende st st.
Proof. exists []. rewrite app_nil_r. destruct st; reflexivity. Qed.

Lemma extiende_trans st1 st2 st3 :
  extiende st1 st2 -> extiende st2 st3 -> extiende st1 st3.
Proof.
  intros [n1 ->] [n2 ->]. cbn. exists (n1 ++ n2).
  rewrite app_assoc. reflexivity.
Qed.

Lemma extiende_alloc st s : extiende st (mkState (dict st) (heap st ++ [s])).
Proof. exists [s]. reflexivity. Qed.

(** A property of the state that every step keeps is kept by the whole
    computation, however it ends. *)
Lemma bind_estado {A B} (I : state -> Prop) (m : M A) (k : A -> M B) st :
  I (estado m st) -> (forall a st', I st' -> I (estado (k a) st')) ->
  I (estado (bind m k) st).
Proof.
  unfold estado, bind. intros Hm Hk.
  destruct (m st) as [[e|a] st']; cbn in *; [exact Hm|apply Hk, Hm].
Qed.

Lemma for_each_estado {A} (I : state -> Prop) (body : A -> M unit) xs :
  (forall x st, I st -> I (estado (body x) st)) ->
  forall st, I st -> I (estado (for_each xs body) st).
Proof.
  intros Hbody. induction xs as [|x xs IH]; intros st Hst; [exact Hst|].
  cbn [for_each]. apply bind_estado; [apply Hbody, Hst|].
  intros _ st' Hst'. apply IH, Hst'.
Qed.

Lemma buscar_palabra_simple_extiende palabra st :
  extiende st (estado (buscar_palabra_simple palabra) st).
Proof.
  unfold buscar_palabra_simple, estado.
  destruct (normalizar_texto palabra) as [|p _]; [apply extiende_refl|].
  unfold bind, dict_contains, dict_getitem, set_new.
  destruct (dict st !! p) as [l|] eqn:Hp; cbn.
  - rewrite Hp. apply extiende_refl.
  - apply extiende_alloc.
Qed.

(** Writing to an object allocated after [st] keeps the objects of [st]. *)
Lemma set_update_extiende st st' l l' :
  length (heap st) <= l -> extiende st st' ->
  extiende st (estado (set_update l l') st').
Proof.
  intros Hl [nuevos ->]. unfold estado, set_update. cbn.
  rewrite alter_app_r_alt by exact Hl. eexists. reflexivity.
Qed.

Lemma estado_bind_ok {A B} (m : M A) (k : A -> M B) st a st' :
  m st = (inr a, st') -> estado (bind m k) st = estado (k a) st'.
Proof. unfold estado. intros H. rewrite (bind_ok _ _ _ _ _ H). reflexivity. Qed.

Lemma buscar_palabras_or_extiende frase st :
  extiende st (estado (buscar_palabras_or frase) st).
Proof.
  unfold buscar_palabras_or.
  generalize (normalizar_texto frase). intros palabras.
  rewrite (estado_bind_ok set_new _ st (length (heap st))
             (mkState (dict st) (heap st ++ [∅])) eq_refl).
  apply (bind_estado (extiende st)); [|intros _ st2 Hst2; exact Hst2].
  apply (for_each_estado (extiende st)); [|apply extiende_alloc].
  intros p st2 Hst2. apply (bind_estado (extiende st)).
  - eapply extiende_trans; [exact Hst2|apply buscar_palabra_simple_extiende].
  - intros l st3 Hst3. apply set_update_extiende; [lia|exact Hst3].
Qed.

Lemma set_intersection_extiende l l' st :
  extiende st (estado (set_intersection l l') st).
Proof. apply extiende_alloc. Qed.

Lemma and_bucle_extiende resto : forall resultado st,
  extiende st (estado (and_bucle resultado resto) st).
Proof.
  induction resto as [|p resto IH]; intros resultado st; [apply extiende_refl|].
  cbn [and_bucle].
  apply (bind_estado (extiende st)); [apply buscar_palabra_simple_extiende|].
  intros urls_palabra st1 Hst1.
  apply (bind_estado (extiende st)).
  { eapply extiende_trans; [exact Hst1|apply set_intersection_extiende]. }
  intros resultado' st2 Hst2.
  apply (bind_estado (extiende st)); [exact Hst2|].
  intros lleno st3 Hst3. destruct (negb lleno); [exact Hst3|].
  eapply extiende_trans; [exact Hst3|apply IH].
Qed.

Lemma buscar_palabras_and_extiende frase st :
  extiende st (estado (buscar_palabras_and frase) st).
Proof.
  unfold buscar_palabras_and.
  generalize (normalizar_texto frase). intros [|primera resto];
    [apply extiende_alloc|].
  apply (bind_estado (extiende st)); [apply buscar_palabra_simple_extiende|].
  intros resultado st1 Hst1.
  eapply extiende_trans; [exact Hst1|apply and_bucle_extiende].
Qed.

(** C10. [buscar_palabra_simple], [buscar_palabras_or] and
    [buscar_palabras_and] leave the index as they found it, whatever the
    input and however the call ends: the dictionary has the same keys with
    the same references, and every set object that existed, the posting
    sets among them, has the members it had. *)
Theorem C10_consultas_no_modifican (texto : string) (st : state) :
  extiende st (estado (buscar_palabra_simple texto) st)
  ∧ extiende st (estado (buscar_palabras_or texto) st)
  ∧ extiende st (estado (buscar_palabras_and texto) st).
Proof.
  split; [apply buscar_palabra_simple_extiende|].
  split; [apply buscar_palabras_or_extiende|apply buscar_palabras_and_extiende].
Qed.

Lemma extiende_heap_ok st st' : heap_ok st -> extiende st st' -> heap_ok st'.
Proof.
  intros Hok [nuevos ->] k l Hk. cbn in *. rewrite length_app.
  specialize (Hok k l Hk). cbn in Hok. lia.
Qed.

(** What [extiende] means for the observer of the index. *)
Lemma extiende_contenido st st' :
  heap_ok st -> extiende st st' -> contenido st' = contenido st.
Proof.
  intros Hok [nuevos ->]. unfold contenido. cbn.
  apply map_eq. intros k. rewrite !lookup_fmap.
  destruct (dict st !! k) as [l|] eqn:Hk; [|reflexivity]. cbn. f_equal.
  unfold members. rewrite lookup_app_l by exact (Hok k l Hk). reflexivity.
Qed.

(** ** What the queries return *)

Lemma normalizar_texto_palabras texto :
  Forall es_palabra (normalizar_texto texto).
Proof. apply Forall_forall. intros p Hp. exact (normalizar_texto_idem _ _ Hp). Qed.

(** On a word of a normalised text the lookup does not fail: it returns
    the object of the index, or a new empty set. *)
Lemma buscar_palabra_simple_palabra p st :
  es_palabra p ->
  exists l st',
    buscar_palabra_simple p st = (inr l, st')
    ∧ members (heap st') l = urls_de st p
    ∧ (forall r, members (heap st') r = members (heap st) r)
    ∧ length (heap st) <= length (heap st').
Proof.
  unfold es_palabra, buscar_palabra_simple, urls_de. intros ->.
  unfold bind, dict_contains, dict_getitem, set_new.
  destruct (dict st !! p) as [l|] eqn:Hp; cbn.
  - rewrite Hp. exists l, st. auto.
  - eexists _, _. split; [reflexivity|]. cbn.
    split; [apply members_new|]. split; [apply members_alloc_empty|].
    rewrite length_app. lia.
Qed.

Lemma members_alter_update (h : list (gset string)) (x : gset string) l :
  l < length h -> members (alter (fun s => s ∪ x) l h) l = members h l ∪ x.
Proof.
  intros Hl. unfold members. rewrite list_lookup_alter_eq.
  destruct (lookup_lt_is_Some_2 h l Hl) as [s ->]. reflexivity.
Qed.

(** One round of the loop of [buscar_palabras_or]. *)
Lemma or_cuerpo_palabra res p st :
  es_palabra p -> res < length (heap st) ->
  exists st',
    (do palabra_actual <- buscar_palabra_simple p ;
     set_update res palabra_actual) st = (inr tt, st')
    ∧ res < length (heap st')
    ∧ members (heap st') res = members (heap st) res ∪ urls_de st p.
Proof.
  intros Hp Hres.
  destruct (buscar_palabra_simple_palabra p st Hp) as (l & st1 & Hb & Hl & Hm & Hlen).
  rewrite (bind_ok _ _ _ _ _ Hb). unfold set_update.
  eexists. split; [reflexivity|]. cbn. rewrite length_alter.
  split; [lia|]. rewrite members_alter_update by lia.
  rewrite Hl, Hm. reflexivity.
Qed.

Lemma or_bucle_crece res palabras : forall st,
  Forall es_palabra palabras -> res < length (heap st) ->
  exists st',
    for_each palabras (fun p =>
      do palabra_actual <- buscar_palabra_simple p ;
      set_update res palabra_actual) st = (inr tt, st')
    ∧ members (heap st) res ⊆ members (heap st') res.
Proof.
  induction palabras as [|p palabras IH]; intros st Hpal Hres.
  - exists st. split; [reflexivity|set_solver].
  - apply Forall_cons in Hpal as [Hp Hpal]. cbn [for_each].
    destruct (or_cuerpo_palabra res p st Hp Hres) as (st1 & Hb & Hres1 & Hm).
    rewrite (bind_ok _ _ _ _ _ Hb).
    destruct (IH st1 Hpal Hres1) as (st' & Hfor & Hsub).
    exists st'. split; [exact Hfor|]. rewrite Hm in Hsub. set_solver.
Qed.

(** The union holds at least the posting set of the first word. *)
Lemma or_de_palabras palabras st :
  Forall es_palabra palabras ->
  exists O,
    conjunto_de
      (do res <- set_new ;
       do _ <- for_each palabras (fun p =>
                 do palabra_actual <- buscar_palabra_simple p ;
                 set_update res palabra_actual) ;
       ret res) st = inr O
    ∧ match palabras with [] => ∅ | primera :: _ => urls_de st primera end ⊆ O.
Proof.
  intros Hpal. unfold conjunto_de.
  rewrite (bind_ok set_new _ st (length (heap st))
             (mkState (dict st) (heap st ++ [∅])) eq_refl).
  set (st1 := mkState (dict st) (heap st ++ [∅])).
  assert (length (heap st) < length (heap st1)) as Hres
    by (cbn; rewrite length_app; cbn; lia).
  destruct palabras as [|primera resto].
  - eexists. split; [reflexivity|set_solver].
  - apply Forall_cons in Hpal as [Hp Hpal]. cbn [for_each].
    destruct (or_cuerpo_palabra _ primera st1 Hp Hres) as (st2 & Hb & Hres2 & Hm).
    destruct (or_bucle_crece _ resto st2 Hpal Hres2) as (st3 & Hfor & Hsub).
    rewrite (bind_ok _ _ st1 tt st3)
      by (rewrite (bind_ok _ _ _ _ _ Hb); exact Hfor).
    eexists. split; [reflexivity|].
    assert (urls_de st1 primera = urls_de st primera) as Hurls.
    { unfold urls_de, st1. cbn. destruct (dict st !! primera); [|reflexivity].
      apply members_alloc_empty. }
    rewrite Hm, Hurls in Hsub. set_solver.
Qed.

(** The loop of [buscar_palabras_and] only narrows its result. *)
Lemma and_bucle_estrecha resto : forall resultado st,
  Forall es_palabra resto ->
  exists r' st',
    and_bucle resultado resto st = (inr r', st')
    ∧ members (heap st') r' ⊆ members (heap st) resultado.
Proof.
  induction resto as [|p resto IH]; intros resultado st Hpal.
  - exists resultado, st. split; [reflexivity|set_solver].
  - apply Forall_cons in Hpal as [Hp Hpal]. cbn [and_bucle].
    destruct (buscar_palabra_simple_palabra p st Hp) as (l & st1 & Hb & _ & Hm & _).
    rewrite (bind_ok _ _ _ _ _ Hb).
    set (nuevo := members (heap st1) resultado ∩ members (heap st1) l).
    set (st2 := mkState (dict st1) (heap st1 ++ [nuevo])).
    rewrite (bind_ok (set_intersection resultado l) _ st1
               (length (heap st1)) st2 eq_refl).
    assert (members (heap st2) (length (heap st1)) ⊆ members (heap st) resultado)
      as Hsub.
    { unfold st2. cbn. rewrite members_new. unfold nuevo. rewrite Hm. set_solver. }
    unfold bind at 1, set_bool. cbn [fst snd].
    destruct (negb (negb _)).
    + eexists _, _. split; [reflexivity|exact Hsub].
    + destruct (IH (length (heap st1)) st2 Hpal) as (r' & st' & Hand & Hsub').
      exists r', st'. split; [exact Hand|set_solver].
Qed.

(** The intersection is within the posting set of the first word. *)
Lemma and_de_palabras lista st :
  Forall es_palabra lista ->
  exists A,
    conjunto_de
      (match lista with
       | [] => set_new
       | primera :: resto =>
           do resultado <- buscar_palabra_simple primera ;
           and_bucle resultado resto
       end) st = inr A
    ∧ A ⊆ match lista with [] => ∅ | primera :: _ => urls_de st primera end.
Proof.
  intros Hpal. unfold conjunto_de. destruct lista as [|primera resto].
  - cbn. eexists. split; [reflexivity|]. rewrite members_new. set_solver.
  - apply Forall_cons in Hpal as [Hp Hpal].
    destruct (buscar_palabra_simple_palabra primera st Hp)
      as (l & st1 & Hb & Hl & _ & _).
    rewrite (bind_ok _ _ _ _ _ Hb).
    destruct (and_bucle_estrecha resto l st1 Hpal) as (r' & st' & Hand & Hsub).
    rewrite Hand. eexists. split; [reflexivity|]. rewrite <- Hl. exact Hsub.
Qed.

(** C7. For every phrase and index both queries return a set, and the one
    [buscar_palabras_and] returns is included in the one
    [buscar_palabras_or] returns. *)
Theorem C7_and_subconjunto_de_or (frase : string) (st : state) :
  exists A O : gset string,
    conjunto_de (buscar_palabras_and frase) st = inr A
    ∧ conjunto_de (buscar_palabras_or frase) st = inr O
    ∧ A ⊆ O.
Proof.
  unfold buscar_palabras_and, buscar_palabras_or.
  pose proof (normalizar_texto_palabras frase) as Hpal. revert Hpal.
  generalize (normalizar_texto frase). intros palabras Hpal.
  destruct (and_de_palabras palabras st Hpal) as (A & HA & HsubA).
  destruct (or_de_palabras palabras st Hpal) as (O & HO & HsubO).
  exists A, O. split; [exact HA|]. split; [exact HO|]. set_solver.
Qed.

(** ** The end-to-end example *)

Example ejemplo_indexa_sin_error :
  resultado_de (procesar_url_en_indice "url1" "el gato come pescado")
               (indice_vacio []) = inr tt
  ∧ map_to_list (contenido st_ejemplo)
    ≡ₚ [("gato", {[ "url1" ]}); ("come", {[ "url1"; "url2" ]});
        ("pescado", {[ "url1" ]}); ("perro", {[ "url2" ]});
        ("carne", {[ "url2" ]})].
Proof.
  split; [vm_compute; reflexivity|].
  apply (bool_decide_unpack _). vm_compute. exact I.
Qed.

(** C2, as stated, fails: the two documents have five distinct words
    (gato, come, pescado, perro, carne), so the statistics are not
    (4, 2, 0.5). *)
Lemma C2_counterexample :
  ~ (conjunto_de (buscar_palabras_and "come") st_ejemplo
       = inr {[ "url1"; "url2" ]}
     ∧ conjunto_de (buscar_palabras_and "gato carne") st_ejemplo = inr ∅
     ∧ conjunto_de (buscar_palabras_or "gato carne") st_ejemplo
       = inr {[ "url1"; "url2" ]}
     ∧ resultado_de calcula_estadisticas_indice st_ejemplo
       = inr (4, 2, 0.5%float)).
Proof.
  intros (_ & _ & _ & H). vm_compute in H. discriminate H.
Qed.

(** C2, amended. On the index of the two documents the three queries
    return what the claim says, and the statistics are five words, two
    identifiers and six postings over five words, the float 1.2. *)
Theorem C2_ejemplo_extremo_a_extremo :
  conjunto_de (buscar_palabras_and "come") st_ejemplo
    = inr {[ "url1"; "url2" ]}
  ∧ conjunto_de (buscar_palabras_and "gato carne") st_ejemplo = inr ∅
  ∧ conjunto_de (buscar_palabras_or "gato carne") st_ejemplo
    = inr {[ "url1"; "url2" ]}
  ∧ resultado_de calcula_estadisticas_indice st_ejemplo
    = inr (5, 2, 1.2%float).
Proof. repeat split; vm_compute; reflexivity. Qed.

(* ===================================================================== *)
(** * Further properties of the normaliser *)
(* ===================================================================== *)

Lemma replace_absent i j s : contains i s = false -> replace i j s = s.
Proof.
  induction s as [|c s IH]; cbn; [reflexivity|].
  intros [Hc Hs]%orb_false_elim. rewrite Hc, (IH Hs). reflexivity.
Qed.

Lemma quitar_signo_replace s i : quitar_signo s i = replace i " " s.
Proof.
  unfold quitar_signo. destruct (contains i s) eqn:Hi; [reflexivity|].
  symmetry. apply replace_absent, Hi.
Qed.

Lemma replace_map_chars i j s :
  replace i j s = map_chars (fun c => if Ascii.eqb c i then j else c) s.
Proof. induction s as [|c s IH]; cbn; [|rewrite IH]; reflexivity. Qed.

Lemma map_chars_compose f g s :
  map_chars f (map_chars g s) = map_chars (fun c => f (g c)) s.
Proof. induction s as [|c s IH]; cbn; [|rewrite IH]; reflexivity. Qed.

Lemma map_chars_ext f g s :
  (forall c, f c = g c) -> map_chars f s = map_chars g s.
Proof. intros H. induction s as [|c s IH]; cbn; [|rewrite H, IH]; reflexivity. Qed.

Lemma map_chars_id s : map_chars (fun c => c) s = s.
Proof. induction s as [|c s IH]; cbn; [|rewrite IH]; reflexivity. Qed.

Lemma map_chars_app f s t :
  map_chars f (s +:+ t) = map_chars f s +:+ map_chars f t.
Proof.
  induction s as [|c s IH]; [reflexivity|].
  rewrite append_cons. cbn [map_chars]. rewrite IH, append_cons. reflexivity.
Qed.

Lemma blanquear_cons i l c :
  blanquear l (if Ascii.eqb c i then " "%char else c) = blanquear (i :: l) c.
Proof.
  unfold blanquear. cbn [existsb].
  destruct (Ascii.eqb c i); [|reflexivity].
  destruct (existsb _ l); reflexivity.
Qed.

(** The loop over the signs, in one pass over the text. *)
Lemma fold_quitar_signo_map l : forall s,
  fold_left quitar_signo l s = map_chars (blanquear l) s.
Proof.
  induction l as [|i l IH]; intros s; cbn [fold_left].
  - symmetry. apply map_chars_id.
  - rewrite quitar_signo_replace, IH, replace_map_chars, map_chars_compose.
    apply map_chars_ext. intros c. apply blanquear_cons.
Qed.

Lemma quitar_puntuacion_map s :
  quitar_puntuacion s
  = map_chars (blanquear (list_ascii_of_string PUNTUACION)) s.
Proof. unfold quitar_puntuacion. apply fold_quitar_signo_map. Qed.

Lemma lower_map_chars s : lower s = map_chars char_lower s.
Proof. induction s as [|c s IH]; cbn; [|rewrite IH]; reflexivity. Qed.

(** What the first two steps of [normalizar_texto] make of one character. *)
Lemma limpiar_map s :
  quitar_puntuacion (lower s)
  = map_chars (fun c => blanquear (list_ascii_of_string PUNTUACION)
                                  (char_lower c)) s.
Proof. rewrite quitar_puntuacion_map, lower_map_chars. apply map_chars_compose. Qed.

Lemma separador_blanco c :
  es_separador c = true ->
  char_isspace (blanquear (list_ascii_of_string PUNTUACION) (char_lower c))
  = true.
Proof. por_casos c. Qed.

Lemma split_from_separador c a b : forall cur,
  char_isspace c = true ->
  split_from cur (a +:+ String c b) = split_from cur a ++ split b.
Proof.
  induction a as [|d a IH]; intros cur Hc.
  - change (EmptyString +:+ String c b) with (String c b).
    cbn [split_from]. rewrite Hc. reflexivity.
  - rewrite append_cons. cbn [split_from]. destruct (char_isspace d).
    + rewrite IH by exact Hc. apply app_assoc.
    + apply IH, Hc.
Qed.

Lemma split_from_blancos s :
  all_chars char_isspace s = true -> split_from EmptyString s = [].
Proof.
  induction s as [|c s IH]; cbn; [reflexivity|].
  intros [Hc Hs]%andb_prop. rewrite Hc. cbn. apply IH, Hs.
Qed.

Lemma lower_lower s : lower (lower s) = lower s.
Proof. apply lower_fixed, all_chars_lower. Qed.

(** X2. [normalizar_texto] does not see the case of letters: a text and
    its lowercase form have the same words. *)
Theorem X2_normalizar_texto_lower (texto : string) :
  normalizar_texto (lower texto) = normalizar_texto texto.
Proof. rewrite !normalizar_texto_filter, lower_lower. reflexivity. Qed.

(** X3. A text made of signs of [PUNTUACION] and whitespace only, the
    empty text among them, has no words. *)
Theorem X3_normalizar_texto_solo_separadores (texto : string) :
  all_chars es_separador texto = true -> normalizar_texto texto = [].
Proof.
  intros Hsep. rewrite normalizar_texto_filter, limpiar_map.
  unfold split. rewrite split_from_blancos; [reflexivity|].
  induction texto as [|c texto IH]; [reflexivity|].
  cbn [all_chars map_chars] in Hsep |- *. apply andb_prop in Hsep as [Hc Hs].
  rewrite (separador_blanco c Hc). apply IH, Hs.
Qed.

Lemma X3_witness : normalizar_texto " ?! ... " = [].
Proof.
  apply (X3_normalizar_texto_solo_separadores " ?! ... "). reflexivity.
Defined.

(** X4. Each word [normalizar_texto] returns is unchanged by a second
    normalisation, which returns that word alone. *)
Theorem X4_normalizar_texto_palabra_fija (texto : string) :
  Forall (fun p => normalizar_texto p = [p]) (normalizar_texto texto).
Proof. exact (normalizar_texto_palabras texto). Qed.

(* ===================================================================== *)
(** * Further properties of the index builder *)
(* ===================================================================== *)

Lemma ejecutar_llamada_todas st c :
  ejecutar_llamada st c = indexar_todas (url_de c) (palabras_de c) st.
Proof.
  destruct c as [url texto|url texto top_n]; cbn [ejecutar_llamada url_de palabras_de].
  - apply estado_procesar.
  - rewrite top_palabras_de_map. apply estado_procesar_top_n.
Qed.

(** X5. Neither indexing function raises, whatever the index: the set a
    word is looked up in right after the test [p not in indice] is always
    there. *)
Theorem X5_indexar_no_falla (url texto : string) (top_n : Z) (st : state) :
  resultado_de (procesar_url_en_indice url texto) st = inr tt
  ∧ resultado_de (procesar_url_en_indice_top_n url texto top_n) st = inr tt.
Proof.
  unfold resultado_de.
  rewrite procesar_url_en_indice_todas, procesar_url_en_indice_top_n_todas.
  split; reflexivity.
Qed.

(** ** Indexes without shared set objects *)

Lemma sin_alias_spec st :
  sin_alias st <->
  forall k1 k2 l, dict st !! k1 = Some l -> dict st !! k2 = Some l -> k1 = k2.
Proof.
  unfold sin_alias. split.
  - intros H k1 k2 l H1 H2. exact (H k1 l H1 k2 l H2 eq_refl).
  - intros H k1 l1 H1 k2 l2 H2 <-. exact (H k1 k2 l1 H1 H2).
Qed.

Lemma paso_sin_alias url st p :
  heap_ok st -> sin_alias st -> sin_alias (paso url st p).
Proof.
  rewrite !sin_alias_spec. unfold paso. intros Hok Hsa.
  destruct (dict st !! p) as [lp|] eqn:Hp; cbn [dict]; [exact Hsa|].
  intros k1 k2 l H1 H2.
  destruct (decide (k1 = p)) as [->|Hn1], (decide (k2 = p)) as [->|Hn2].
  - reflexivity.
  - rewrite lookup_insert_eq in H1. rewrite lookup_insert_ne in H2 by congruence.
    inversion H1; subst l. specialize (Hok k2 _ H2). cbn in Hok. lia.
  - rewrite lookup_insert_eq in H2. rewrite lookup_insert_ne in H1 by congruence.
    inversion H2; subst l. specialize (Hok k1 _ H1). cbn in Hok. lia.
  - rewrite lookup_insert_ne in H1, H2 by congruence. exact (Hsa k1 k2 l H1 H2).
Qed.

Lemma indexar_todas_sin_alias url ws : forall st,
  heap_ok st -> sin_alias st -> sin_alias (indexar_todas url ws st).
Proof.
  induction ws as [|p ws IH]; intros st Hok Hsa; [exact Hsa|].
  apply IH; [apply paso_heap_ok, Hok|apply paso_sin_alias; assumption].
Qed.

Lemma ejecutar_sin_alias cs : forall st,
  heap_ok st -> sin_alias st -> sin_alias (ejecutar cs st).
Proof.
  induction cs as [|c cs IH]; intros st Hok Hsa; [exact Hsa|].
  cbn [ejecutar fold_left]. apply IH; rewrite ejecutar_llamada_todas.
  - apply indexar_todas_heap_ok, Hok.
  - apply indexar_todas_sin_alias; assumption.
Qed.

Lemma sin_alias_vacio h : sin_alias (indice_vacio h).
Proof. apply map_Forall_empty. Qed.

(** X6. An index built from the empty one by indexing calls, in any
    number and order, refers to allocated set objects only and gives each
    word a set object of its own. *)
Theorem X6_indice_construido_sin_alias (cs : list llamada) (h : list (gset string)) :
  heap_ok (ejecutar cs (indice_vacio h))
  ∧ sin_alias (ejecutar cs (indice_vacio h)).
Proof.
  split.
  - apply ejecutar_heap_ok, heap_ok_vacio.
  - apply ejecutar_sin_alias; [apply heap_ok_vacio|apply sin_alias_vacio].
Qed.

Lemma urls_de_contenido st k : urls_de st k = default ∅ (contenido st !! k).
Proof.
  unfold urls_de, contenido. rewrite lookup_fmap.
  destruct (dict st !! k); reflexivity.
Qed.

Lemma tocado_sin_alias st ws k l :
  sin_alias st -> dict st !! k = Some l -> tocado st ws l <-> k ∈ ws.
Proof.
  rewrite sin_alias_spec. intros Hsa Hk. unfold tocado. rewrite Exists_exists.
  split.
  - intros (t & Ht & Htl). rewrite (Hsa k t l Hk Htl). exact Ht.
  - intros Hin. exists k. auto.
Qed.

Lemma tras_indexar_indexado url ws st k :
  sin_alias st -> tras_indexar url ws st k = indexado url ws st k.
Proof.
  intros Hsa. unfold tras_indexar, indexado, urls_de, contenido.
  rewrite lookup_fmap.
  destruct (dict st !! k) as [l|] eqn:Hk; cbn.
  - rewrite (decide_ext _ _ _ _ (tocado_sin_alias st ws k l Hsa Hk)).
    case_decide; [reflexivity|]. rewrite (right_id_L ∅ (∪)). reflexivity.
  - case_decide; [|reflexivity]. rewrite (left_id_L ∅ (∪)). reflexivity.
Qed.

Lemma indexar_todas_indexado url ws st k :
  heap_ok st -> sin_alias st ->
  contenido (indexar_todas url ws st) !! k = indexado url ws st k.
Proof.
  intros Hok Hsa. rewrite indexar_todas_contenido by exact Hok.
  apply tras_indexar_indexado, Hsa.
Qed.

(** On a given state [sin_alias] is settled by evaluation. *)
Ltac sin_alias_por_calculo :=
  unfold sin_alias; apply (bool_decide_unpack _); vm_compute; exact I.

(** X7. On an index whose words have set objects of their own,
    [procesar_url_en_indice] adds [url] to the posting set of every word
    of the normalised text, entering the words that were not keys, and
    leaves every other word with the posting set it had. *)
Theorem X7_procesar_url_efecto (url texto : string) (st : state) (k : string) :
  heap_ok st -> sin_alias st ->
  contenido (estado (procesar_url_en_indice url texto) st) !! k
  = indexado url (normalizar_texto texto) st k.
Proof.
  intros Hok Hsa. rewrite estado_procesar.
  apply indexar_todas_indexado; assumption.
Qed.

Lemma X7_witness :
  contenido (estado (procesar_url_en_indice "url3" "El gato ladra.")
                    st_ejemplo) !! "gato"
  = indexado "url3" (normalizar_texto "El gato ladra.") st_ejemplo "gato".
Proof.
  apply (X7_procesar_url_efecto "url3" "El gato ladra." st_ejemplo "gato").
  - heap_ok_por_calculo.
  - sin_alias_por_calculo.
Defined.

(** X8. With [top_n] zero or negative [procesar_url_en_indice_top_n]
    indexes nothing: it returns normally and the state is untouched. *)
Theorem X8_top_n_no_positivo (url texto : string) (top_n : Z) (st : state) :
  (top_n <= 0)%Z ->
  procesar_url_en_indice_top_n url texto top_n st = (inr tt, st).
Proof.
  intros Hn. unfold procesar_url_en_indice_top_n, most_common.
  generalize (sorted_desc (Counter (normalizar_texto texto))). intros items.
  replace (Z.to_nat top_n) with 0 by lia. reflexivity.
Qed.

Lemma X8_witness :
  procesar_url_en_indice_top_n "url3" "El gato ladra." (-2) st_ejemplo
  = (inr tt, st_ejemplo).
Proof.
  apply (X8_top_n_no_positivo "url3" "El gato ladra." (-2) st_ejemplo). lia.
Defined.

(** Indexing only adds: a word keeps its key and the members of its
    posting set. *)
Lemma indexar_todas_crece url ws st k s :
  heap_ok st -> contenido st !! k = Some s ->
  exists s', contenido (indexar_todas url ws st) !! k = Some s' ∧ s ⊆ s'.
Proof.
  intros Hok Hk. rewrite indexar_todas_contenido by exact Hok.
  unfold tras_indexar. unfold contenido in Hk. rewrite lookup_fmap in Hk.
  destruct (dict st !! k) as [l|]; [|discriminate]. cbn in Hk.
  injection Hk as <-. eexists. split; [reflexivity|]. set_solver.
Qed.

(** X9. An indexing call of either kind removes nothing: every word that
    was a key is still one, and its posting set has every member it had
    (so postings of an earlier text of the same document stay). *)
Theorem X9_indexar_no_quita (c : llamada) (st : state) (k : string) (s : gset string) :
  heap_ok st -> contenido st !! k = Some s ->
  exists s', contenido (ejecutar_llamada st c) !! k = Some s' ∧ s ⊆ s'.
Proof.
  intros Hok Hk. rewrite ejecutar_llamada_todas.
  apply indexar_todas_crece; assumption.
Qed.

Lemma X9_witness :
  exists s',
    contenido (ejecutar_llamada st_ejemplo (Indexar "url1" "un perro"))
      !! "gato" = Some s'
    ∧ ({[ "url1" ]} : gset string) ⊆ s'.
Proof.
  apply (X9_indexar_no_quita (Indexar "url1" "un perro") st_ejemplo "gato").
  - heap_ok_por_calculo.
  - vm_compute. reflexivity.
Defined.

Lemma tras_indexar_mono url ws ws' st k s :
  (forall x, x ∈ ws -> x ∈ ws') ->
  tras_indexar url ws st k = Some s ->
  exists s', tras_indexar url ws' st k = Some s' ∧ s ⊆ s'.
Proof.
  intros Hsub. unfold tras_indexar.
  destruct (dict st !! k) as [l|].
  - intros [= <-]. eexists. split; [reflexivity|].
    assert (tocado st ws l -> tocado st ws' l) as Htoc.
    { unfold tocado. rewrite !Exists_exists.
      intros (t & Ht & Htl). exists t. auto. }
    repeat case_decide; set_solver.
  - case_decide as Hk; [|discriminate]. intros [= <-].
    rewrite decide_True by (apply Hsub, Hk). eexists. split; [reflexivity|].
    set_solver.
Qed.

Lemma most_common_palabras top_n ws x :
  x ∈ (most_common top_n (Counter ws)).*1 -> x ∈ ws.
Proof. apply (most_common_seleccion top_n ws). Qed.

(** X10. The capped function indexes no more than the uncapped one: from
    the same index, every word [procesar_url_en_indice_top_n] leaves as a
    key is a key after [procesar_url_en_indice] too, with a posting set
    that holds at least the same members. *)
Theorem X10_top_n_dentro_de_procesar
    (url texto : string) (top_n : Z) (st : state) (k : string) (s : gset string) :
  heap_ok st ->
  contenido (estado (procesar_url_en_indice_top_n url texto top_n) st) !! k
    = Some s ->
  exists s',
    contenido (estado (procesar_url_en_indice url texto) st) !! k = Some s'
    ∧ s ⊆ s'.
Proof.
  intros Hok. rewrite estado_procesar_top_n, estado_procesar.
  rewrite !indexar_todas_contenido by exact Hok.
  apply tras_indexar_mono. intros x. apply most_common_palabras.
Qed.

Lemma X10_witness :
  exists s',
    contenido (estado (procesar_url_en_indice "url3" "b x x c b d x c")
                      st_ejemplo) !! "x" = Some s'
    ∧ ({[ "url3" ]} : gset string) ⊆ s'.
Proof.
  apply (X10_top_n_dentro_de_procesar "url3" "b x x c b d x c" 1 st_ejemplo "x").
  - heap_ok_por_calculo.
  - vm_compute. reflexivity.
Defined.

Lemma indexado_dos u1 ws1 u2 ws2 st k :
  heap_ok st -> sin_alias st ->
  contenido (indexar_todas u2 ws2 (indexar_todas u1 ws1 st)) !! k
  = if decide (k ∈ ws2)
    then Some (default ∅ (if decide (k ∈ ws1)
                          then Some (urls_de st k ∪ {[u1]})
                          else contenido st !! k) ∪ {[u2]})
    else if decide (k ∈ ws1) then Some (urls_de st k ∪ {[u1]})
         else contenido st !! k.
Proof.
  intros Hok Hsa.
  rewrite indexar_todas_indexado
    by (apply indexar_todas_heap_ok || apply indexar_todas_sin_alias; assumption).
  unfold indexado at 1. rewrite urls_de_contenido.
  rewrite indexar_todas_indexado by assumption. reflexivity.
Qed.

(** X11. Two indexing calls, of either kind, can be made in either order:
    on an index whose words have set objects of their own the resulting
    mapping from words to posting sets is the same. *)
Theorem X11_indexar_conmuta (c1 c2 : llamada) (st : state) :
  heap_ok st -> sin_alias st ->
  contenido (ejecutar [c1; c2] st) = contenido (ejecutar [c2; c1] st).
Proof.
  intros Hok Hsa. cbn [ejecutar fold_left]. rewrite !ejecutar_llamada_todas.
  generalize (palabras_de c1) (url_de c1) (palabras_de c2) (url_de c2).
  intros ws1 u1 ws2 u2. apply map_eq. intros k.
  rewrite !indexado_dos by assumption. rewrite urls_de_contenido.
  destruct (contenido st !! k) as [s|]; repeat case_decide; cbn;
    f_equal; set_solver.
Qed.

Lemma X11_witness :
  contenido (ejecutar [Indexar "url3" "El gato ladra.";
                       IndexarTopN "url4" "perro gato perro" 1] st_ejemplo)
  = contenido (ejecutar [IndexarTopN "url4" "perro gato perro" 1;
                         Indexar "url3" "El gato ladra."] st_ejemplo).
Proof.
  apply (X11_indexar_conmuta (Indexar "url3" "El gato ladra.")
           (IndexarTopN "url4" "perro gato perro" 1) st_ejemplo).
  - heap_ok_por_calculo.
  - sin_alias_por_calculo.
Defined.

(* ===================================================================== *)
(** * Further properties of the queries *)
(* ===================================================================== *)

Lemma conjunto_de_ok (m : M loc) st l st' :
  m st = (inr l, st') -> conjunto_de m st = inr (members (heap st') l).
Proof. unfold conjunto_de. intros ->. reflexivity. Qed.

Lemma estado_ok {A} (m : M A) st r st' : m st = (r, st') -> estado m st = st'.
Proof. unfold estado. intros ->. reflexivity. Qed.

Lemma tiene_urls_de url st p : tiene url st p -> url ∈ urls_de st p.
Proof.
  intros (l & s & Hp & Hl & Hin). unfold urls_de, members.
  rewrite Hp, Hl. exact Hin.
Qed.

(** The query on one word, whatever the input: the posting set of the
    first word of the normalisation. *)
Lemma buscar_palabra_simple_de palabras st :
  conjunto_de
    (match palabras with
     | [] => raise IndexError
     | palabra :: _ =>
         do esta <- dict_contains palabra ;
         if negb esta then set_new else dict_getitem palabra
     end) st
  = consulta_simple st palabras.
Proof.
  destruct palabras as [|p r]; [reflexivity|].
  unfold conjunto_de, consulta_simple, urls_de, bind, dict_contains,
    dict_getitem, set_new.
  destruct (dict st !! p) as [l|] eqn:Hp; cbn.
  - rewrite Hp. reflexivity.
  - rewrite members_new. reflexivity.
Qed.

(** X12. [buscar_palabra_simple] answers with the posting set of the
    first word of the normalised input and ignores the other words; a word
    that is not a key gives the empty set, an input without words
    [IndexError]. *)
Theorem X12_buscar_palabra_simple_resultado (palabra : string) (st : state) :
  conjunto_de (buscar_palabra_simple palabra) st
  = consulta_simple st (normalizar_texto palabra).
Proof.
  unfold buscar_palabra_simple.
  generalize (normalizar_texto palabra). intros palabras.
  apply buscar_palabra_simple_de.
Qed.

(** X13. Round trip: after [procesar_url_en_indice url texto], looking up
    any word of the normalised text returns a set that holds [url]. *)
Theorem X13_buscar_tras_indexar (url texto : string) (st : state) :
  heap_ok st ->
  Forall (fun p =>
      exists s,
        conjunto_de (buscar_palabra_simple p)
                    (estado (procesar_url_en_indice url texto) st) = inr s
        ∧ url ∈ s)
    (normalizar_texto texto).
Proof.
  intros Hok. rewrite estado_procesar.
  pose proof (normalizar_texto_palabras texto) as Hpal.
  pose proof (indexar_todas_tiene url (normalizar_texto texto) st Hok) as Htiene.
  revert Hpal Htiene. generalize (normalizar_texto texto). intros ws Hpal Htiene.
  set (st' := indexar_todas url ws st) in *. clearbody st'.
  apply Forall_forall. intros p Hp.
  rewrite Forall_forall in Hpal.
  destruct (buscar_palabra_simple_palabra p st' (Hpal p Hp))
    as (l & st'' & Hb & Hl & _ & _).
  exists (members (heap st'') l). split; [apply conjunto_de_ok, Hb|].
  rewrite Hl. apply tiene_urls_de, Htiene, Hp.
Qed.

Lemma X13_witness :
  Forall (fun p =>
      exists s,
        conjunto_de (buscar_palabra_simple p)
                    (estado (procesar_url_en_indice "url3" "El gato ladra.")
                            st_ejemplo) = inr s
        ∧ "url3" ∈ s)
    (normalizar_texto "El gato ladra.").
Proof.
  apply (X13_buscar_tras_indexar "url3" "El gato ladra." st_ejemplo).
  heap_ok_por_calculo.
Defined.

(** ** The queries on phrases, as union and intersection *)

Lemma urls_de_extiende st st' p :
  heap_ok st -> extiende st st' -> urls_de st' p = urls_de st p.
Proof.
  intros Hok [nuevos ->]. unfold urls_de. cbn.
  destruct (dict st !! p) as [l|] eqn:Hp; [|reflexivity].
  unfold members. rewrite lookup_app_l by exact (Hok p l Hp). reflexivity.
Qed.

Lemma extiende_length st st' : extiende st st' -> length (heap st) <= length (heap st').
Proof. intros [nuevos ->]. cbn. rewrite length_app. lia. Qed.

Lemma or_cuerpo_extiende st res p st1 :
  length (heap st) <= res -> extiende st st1 ->
  extiende st (estado (do palabra_actual <- buscar_palabra_simple p ;
                       set_update res palabra_actual) st1).
Proof.
  intros Hres Hst1. apply (bind_estado (extiende st)).
  - eapply extiende_trans; [exact Hst1|apply buscar_palabra_simple_extiende].
  - intros l st2 Hst2. apply set_update_extiende; assumption.
Qed.

Lemma or_bucle_union st res palabras : forall st1,
  heap_ok st -> extiende st st1 ->
  length (heap st) <= res -> res < length (heap st1) ->
  Forall es_palabra palabras ->
  exists st',
    for_each palabras (fun p =>
      do palabra_actual <- buscar_palabra_simple p ;
      set_update res palabra_actual) st1 = (inr tt, st')
    ∧ members (heap st') res = members (heap st1) res ∪ union_de st palabras.
Proof.
  induction palabras as [|p palabras IH]; intros st1 Hok Hext Hge Hres Hpal.
  - exists st1. split; [reflexivity|]. unfold union_de. cbn.
    rewrite (right_id_L ∅ (∪)). reflexivity.
  - apply Forall_cons in Hpal as [Hp Hpal]. cbn [for_each].
    destruct (or_cuerpo_palabra res p st1 Hp Hres) as (st2 & Hb & Hres2 & Hm).
    pose proof (or_cuerpo_extiende st res p st1 Hge Hext) as Hext2.
    rewrite (estado_ok _ _ _ _ Hb) in Hext2.
    rewrite (bind_ok _ _ _ _ _ Hb).
    destruct (IH st2 Hok Hext2 Hge Hres2 Hpal) as (st' & Hfor & Hm').
    exists st'. split; [exact Hfor|].
    rewrite Hm', Hm, (urls_de_extiende st st1 p Hok Hext).
    unfold union_de. cbn. set_solver.
Qed.

Lemma or_de_palabras_union palabras st :
  heap_ok st -> Forall es_palabra palabras ->
  conjunto_de
    (do res <- set_new ;
     do _ <- for_each palabras (fun p =>
               do palabra_actual <- buscar_palabra_simple p ;
               set_update res palabra_actual) ;
     ret res) st = inr (union_de st palabras).
Proof.
  intros Hok Hpal. unfold conjunto_de.
  rewrite (bind_ok set_new _ st (length (heap st))
             (mkState (dict st) (heap st ++ [∅])) eq_refl).
  set (st1 := mkState (dict st) (heap st ++ [∅])).
  assert (length (heap st) < length (heap st1)) as Hres
    by (cbn; rewrite length_app; cbn; lia).
  destruct (or_bucle_union st (length (heap st)) palabras st1 Hok
              (extiende_alloc st ∅) (le_n _) Hres Hpal) as (st' & Hfor & Hm).
  rewrite (bind_ok _ _ st1 tt st' Hfor). cbn. rewrite Hm.
  unfold st1. cbn. rewrite members_new, (left_id_L ∅ (∪)). reflexivity.
Qed.

Lemma buscar_palabras_or_union frase st :
  heap_ok st ->
  conjunto_de (buscar_palabras_or frase) st
  = inr (union_de st (normalizar_texto frase)).
Proof.
  intros Hok. unfold buscar_palabras_or.
  pose proof (normalizar_texto_palabras frase) as Hpal. revert Hpal.
  generalize (normalizar_texto frase). intros palabras Hpal.
  apply or_de_palabras_union; assumption.
Qed.

(** X14. [buscar_palabras_or] returns the union of the posting sets of
    the words of the normalised phrase (the empty set when there is none),
    and never fails. *)
Theorem X14_buscar_palabras_or_union (frase : string) (st : state) :
  heap_ok st ->
  conjunto_de (buscar_palabras_or frase) st
  = inr (union_de st (normalizar_texto frase)).
Proof. apply buscar_palabras_or_union. Qed.

Lemma X14_witness :
  conjunto_de (buscar_palabras_or "gato carne") st_ejemplo
  = inr (union_de st_ejemplo (normalizar_texto "gato carne")).
Proof.
  apply (X14_buscar_palabras_or_union "gato carne" st_ejemplo).
  heap_ok_por_calculo.
Defined.

Lemma fold_inter_vacio st resto :
  fold_left (fun acc p => acc ∩ urls_de st p) resto ∅ = ∅.
Proof.
  induction resto as [|p resto IH]; [reflexivity|].
  cbn. rewrite (left_absorb_L ∅ (∩)). exact IH.
Qed.

(** The loop of [buscar_palabras_and] computes the running intersection;
    leaving it early on an empty set does not change the outcome. *)
Lemma and_bucle_interseccion st resto : forall resultado st1,
  heap_ok st -> extiende st st1 -> Forall es_palabra resto ->
  exists r' st',
    and_bucle resultado resto st1 = (inr r', st')
    ∧ members (heap st') r'
      = fold_left (fun acc p => acc ∩ urls_de st p) resto
                  (members (heap st1) resultado).
Proof.
  induction resto as [|p resto IH]; intros resultado st1 Hok Hext Hpal.
  - exists resultado, st1. split; reflexivity.
  - apply Forall_cons in Hpal as [Hp Hpal]. cbn [and_bucle fold_left].
    destruct (buscar_palabra_simple_palabra p st1 Hp)
      as (l & st2 & Hb & Hl & Hm & _).
    assert (extiende st st2) as Hext2.
    { rewrite <- (estado_ok _ _ _ _ Hb).
      eapply extiende_trans; [exact Hext|apply buscar_palabra_simple_extiende]. }
    rewrite (bind_ok _ _ _ _ _ Hb).
    set (nuevo := members (heap st2) resultado ∩ members (heap st2) l).
    set (st3 := mkState (dict st2) (heap st2 ++ [nuevo])).
    rewrite (bind_ok (set_intersection resultado l) _ st2
               (length (heap st2)) st3 eq_refl).
    assert (members (heap st3) (length (heap st2))
            = members (heap st1) resultado ∩ urls_de st p) as Hnuevo.
    { unfold st3. cbn. rewrite members_new. unfold nuevo.
      rewrite Hm, Hl, (urls_de_extiende st st1 p Hok Hext). reflexivity. }
    assert (extiende st st3) as Hext3.
    { eapply extiende_trans; [exact Hext2|apply extiende_alloc]. }
    unfold bind at 1, set_bool. cbn [fst snd].
    destruct (decide (members (heap st3) (length (heap st2)) = ∅)) as [Hv|Hv].
    + rewrite bool_decide_eq_true_2 by exact Hv. cbn.
      eexists _, _. split; [reflexivity|].
      rewrite Hv. rewrite <- Hnuevo, Hv. symmetry. apply fold_inter_vacio.
    + rewrite bool_decide_eq_false_2 by exact Hv. cbn.
      destruct (IH (length (heap st2)) st3 Hok Hext3 Hpal)
        as (r' & st' & Hand & Hm').
      exists r', st'. split; [exact Hand|]. rewrite Hm', Hnuevo. reflexivity.
Qed.

Lemma and_de_palabras_interseccion lista st :
  heap_ok st -> Forall es_palabra lista ->
  conjunto_de
    (match lista with
     | [] => set_new
     | primera :: resto =>
         do resultado <- buscar_palabra_simple primera ;
         and_bucle resultado resto
     end) st = inr (interseccion_todas st lista).
Proof.
  intros Hok Hpal. destruct lista as [|primera resto].
  - unfold conjunto_de. cbn. rewrite members_new. reflexivity.
  - apply Forall_cons in Hpal as [Hp Hpal].
    destruct (buscar_palabra_simple_palabra primera st Hp)
      as (l & st1 & Hb & Hl & _ & _).
    assert (extiende st st1) as Hext.
    { rewrite <- (estado_ok _ _ _ _ Hb). apply buscar_palabra_simple_extiende. }
    destruct (and_bucle_interseccion st resto l st1 Hok Hext Hpal)
      as (r' & st' & Hand & Hm).
    unfold conjunto_de. rewrite (bind_ok _ _ _ _ _ Hb), Hand.
    rewrite Hm, Hl. reflexivity.
Qed.

Lemma buscar_palabras_and_interseccion frase st :
  heap_ok st ->
  conjunto_de (buscar_palabras_and frase) st
  = inr (interseccion_todas st (normalizar_texto frase)).
Proof.
  intros Hok. unfold buscar_palabras_and.
  pose proof (normalizar_texto_palabras frase) as Hpal. revert Hpal.
  generalize (normalizar_texto frase). intros palabras Hpal.
  apply and_de_palabras_interseccion; assumption.
Qed.

(** X15. [buscar_palabras_and] returns the intersection of the posting
    sets of the words of the normalised phrase (the empty set when there
    is none) and never fails; the early exit on an empty intersection is
    not visible in the result. *)
Theorem X15_buscar_palabras_and_interseccion (frase : string) (st : state) :
  heap_ok st ->
  conjunto_de (buscar_palabras_and frase) st
  = inr (interseccion_todas st (normalizar_texto frase)).
Proof. apply buscar_palabras_and_interseccion. Qed.

Lemma X15_witness :
  conjunto_de (buscar_palabras_and "come gato") st_ejemplo
  = inr (interseccion_todas st_ejemplo (normalizar_texto "come gato")).
Proof.
  apply (X15_buscar_palabras_and_interseccion "come gato" st_ejemplo).
  heap_ok_por_calculo.
Defined.

(** ** What the union and the intersection depend on *)

Lemma elem_of_union_de st palabras x :
  x ∈ union_de st palabras <-> exists p, p ∈ palabras ∧ x ∈ urls_de st p.
Proof.
  unfold union_de. rewrite elem_of_union_list. split.
  - intros (X & HX & Hx). apply list_elem_of_fmap in HX as (p & -> & Hp). eauto.
  - intros (p & Hp & Hx). exists (urls_de st p).
    split; [apply list_elem_of_fmap_2, Hp|exact Hx].
Qed.

Lemma elem_of_fold_inter st resto : forall (X : gset string) x,
  x ∈ fold_left (fun acc p => acc ∩ urls_de st p) resto X
  <-> x ∈ X ∧ forall q, q ∈ resto -> x ∈ urls_de st q.
Proof.
  induction resto as [|p resto IH]; intros X x; cbn.
  - split; [intros H; split; [exact H|intros q Hq; set_solver]|tauto].
  - rewrite IH, elem_of_intersection. split.
    + intros [[HX Hp] Hr]. split; [exact HX|].
      intros q [->|Hq]%elem_of_cons; auto.
    + intros [HX Hall]. split; [split; [exact HX|apply Hall; left]|].
      intros q Hq. apply Hall. right. exact Hq.
Qed.

Lemma elem_of_interseccion_todas st palabras x :
  palabras <> [] ->
  x ∈ interseccion_todas st palabras
  <-> forall q, q ∈ palabras -> x ∈ urls_de st q.
Proof.
  destruct palabras as [|p resto]; [congruence|]. intros _.
  unfold interseccion_todas, interseccion_de. rewrite elem_of_fold_inter.
  split.
  - intros [Hp Hr] q [->|Hq]%elem_of_cons; auto.
  - intros Hall. split; [apply Hall; left|].
    intros q Hq. apply Hall. right. exact Hq.
Qed.

Lemma mismas_palabras (ws1 ws2 : list string) :
  (list_to_set ws1 : gset string) = list_to_set ws2 ->
  forall x, x ∈ ws1 <-> x ∈ ws2.
Proof.
  intros Heq x.
  rewrite <- (elem_of_list_to_set (C := gset string) x ws1), Heq.
  apply elem_of_list_to_set.
Qed.

Lemma union_de_mismas st ws1 ws2 :
  (forall x, x ∈ ws1 <-> x ∈ ws2) -> union_de st ws1 = union_de st ws2.
Proof.
  intros Heq. apply set_eq. intros x. rewrite !elem_of_union_de.
  split; intros (p & Hp & Hx); exists p; (split; [apply Heq, Hp|exact Hx]).
Qed.

Lemma interseccion_todas_mismas st ws1 ws2 :
  (forall x, x ∈ ws1 <-> x ∈ ws2) ->
  interseccion_todas st ws1 = interseccion_todas st ws2.
Proof.
  intros Heq. destruct ws1 as [|p1 r1], ws2 as [|p2 r2].
  - reflexivity.
  - exfalso. apply (not_elem_of_nil p2), Heq. left.
  - exfalso. apply (not_elem_of_nil p1), Heq. left.
  - apply set_eq. intros x. rewrite !elem_of_interseccion_todas by discriminate.
    split; intros Hall q Hq; apply Hall, Heq, Hq.
Qed.

(** X16. The answers of [buscar_palabras_or] and [buscar_palabras_and]
    depend on the set of words of the phrase only: two phrases with the
    same words, in any order and with any repetitions, get the same
    answers. *)
Theorem X16_consultas_mismas_palabras (frase1 frase2 : string) (st : state) :
  heap_ok st ->
  (list_to_set (normalizar_texto frase1) : gset string)
  = list_to_set (normalizar_texto frase2) ->
  conjunto_de (buscar_palabras_or frase1) st
  = conjunto_de (buscar_palabras_or frase2) st
  ∧ conjunto_de (buscar_palabras_and frase1) st
    = conjunto_de (buscar_palabras_and frase2) st.
Proof.
  intros Hok Heq. pose proof (mismas_palabras _ _ Heq) as Hmismas.
  rewrite !buscar_palabras_or_union, !buscar_palabras_and_interseccion
    by exact Hok.
  revert Hmismas.
  generalize (normalizar_texto frase1) (normalizar_texto frase2).
  intros ws1 ws2 Hmismas.
  rewrite (union_de_mismas st ws1 ws2 Hmismas).
  rewrite (interseccion_todas_mismas st ws1 ws2 Hmismas).
  split; reflexivity.
Qed.

Lemma X16_witness :
  conjunto_de (buscar_palabras_or "gato, come... gato") st_ejemplo
  = conjunto_de (buscar_palabras_or "COME el gato") st_ejemplo
  ∧ conjunto_de (buscar_palabras_and "gato, come... gato") st_ejemplo
    = conjunto_de (buscar_palabras_and "COME el gato") st_ejemplo.
Proof.
  apply (X16_consultas_mismas_palabras "gato, come... gato" "COME el gato"
           st_ejemplo).
  - heap_ok_por_calculo.
  - vm_compute. reflexivity.
Defined.

(** X17. A document is found by its own text: after
    [procesar_url_en_indice url texto], if the text has at least one word,
    both [buscar_palabras_and texto] and [buscar_palabras_or texto] return
    a set that holds [url]. *)
Theorem X17_documento_encontrado (url texto : string) (st : state) :
  heap_ok st -> normalizar_texto texto <> [] ->
  exists A O : gset string,
    conjunto_de (buscar_palabras_and texto)
                (estado (procesar_url_en_indice url texto) st) = inr A
    ∧ url ∈ A
    ∧ conjunto_de (buscar_palabras_or texto)
                  (estado (procesar_url_en_indice url texto) st) = inr O
    ∧ url ∈ O.
Proof.
  intros Hok Hne.
  assert (heap_ok (estado (procesar_url_en_indice url texto) st)) as Hok'
    by (rewrite estado_procesar; apply indexar_todas_heap_ok, Hok).
  rewrite buscar_palabras_and_interseccion, buscar_palabras_or_union
    by exact Hok'.
  rewrite estado_procesar. clear Hok'.
  pose proof (indexar_todas_tiene url (normalizar_texto texto) st Hok) as Htiene.
  revert Hne Htiene. generalize (normalizar_texto texto). intros ws Hne Htiene.
  set (st' := indexar_todas url ws st) in *. clearbody st'.
  eexists _, _. split; [reflexivity|]. split; [|split; [reflexivity|]].
  - apply elem_of_interseccion_todas; [exact Hne|].
    intros q Hq. apply tiene_urls_de, Htiene, Hq.
  - destruct ws as [|p r]; [congruence|].
    apply elem_of_union_de. exists p. split; [left|].
    apply tiene_urls_de, Htiene. left.
Qed.

Lemma X17_witness :
  exists A O : gset string,
    conjunto_de (buscar_palabras_and "El gato ladra.")
                (estado (procesar_url_en_indice "url3" "El gato ladra.")
                        st_ejemplo) = inr A
    ∧ "url3" ∈ A
    ∧ conjunto_de (buscar_palabras_or "El gato ladra.")
                  (estado (procesar_url_en_indice "url3" "El gato ladra.")
                          st_ejemplo) = inr O
    ∧ "url3" ∈ O.
Proof.
  apply (X17_documento_encontrado "url3" "El gato ladra." st_ejemplo).
  - heap_ok_por_calculo.
  - vm_compute. discriminate.
Defined.

(** ** Which set object a query returns *)

(** X18. On a word that is a key, [buscar_palabra_simple] returns the very
    set object the index holds for it, not a copy, and allocates nothing:
    a caller that changes the result changes the index. *)
Theorem X18_buscar_palabra_simple_mismo_objeto
    (palabra p : string) (r : list string) (l : loc) (st : state) :
  normalizar_texto palabra = p :: r -> dict st !! p = Some l ->
  buscar_palabra_simple palabra st = (inr l, st).
Proof.
  intros Hn Hp. unfold buscar_palabra_simple. rewrite Hn.
  unfold bind, dict_contains, dict_getitem. cbn. rewrite Hp. cbn.
  rewrite Hp. reflexivity.
Qed.

Lemma X18_witness : buscar_palabra_simple "Gato!" st_ejemplo = (inr 0, st_ejemplo).
Proof.
  apply (X18_buscar_palabra_simple_mismo_objeto "Gato!" "gato" [] 0 st_ejemplo);
    vm_compute; reflexivity.
Defined.

(** X19. On a phrase of one word that is a key, [buscar_palabras_and]
    too returns the set object of the index itself. *)
Theorem X19_buscar_palabras_and_mismo_objeto
    (frase p : string) (l : loc) (st : state) :
  normalizar_texto frase = [p] -> dict st !! p = Some l ->
  buscar_palabras_and frase st = (inr l, st).
Proof.
  intros Hn Hp. unfold buscar_palabras_and. rewrite Hn.
  assert (es_palabra p) as Hpal.
  { assert (p ∈ normalizar_texto frase) as Hin by (rewrite Hn; left).
    exact (normalizar_texto_idem frase p Hin). }
  rewrite (bind_ok _ _ st l st); [reflexivity|].
  unfold buscar_palabra_simple. rewrite Hpal.
  unfold bind, dict_contains, dict_getitem. cbn. rewrite Hp. cbn.
  rewrite Hp. reflexivity.
Qed.

Lemma X19_witness : buscar_palabras_and "el Gato" st_ejemplo = (inr 0, st_ejemplo).
Proof.
  apply (X19_buscar_palabras_and_mismo_objeto "el Gato" "gato" 0 st_ejemplo);
    vm_compute; reflexivity.
Defined.

(** X20. [buscar_palabras_or] returns a set object of its own: it is
    allocated by the call and no word of the index refers to it. *)
Theorem X20_buscar_palabras_or_objeto_nuevo (frase : string) (st : state) :
  heap_ok st ->
  resultado_de (buscar_palabras_or frase) st = inr (length (heap st))
  ∧ map_Forall (fun _ l => l <> length (heap st))
               (dict (estado (buscar_palabras_or frase) st)).
Proof.
  intros Hok. split.
  - unfold resultado_de, buscar_palabras_or.
    pose proof (normalizar_texto_palabras frase) as Hpal. revert Hpal.
    generalize (normalizar_texto frase). intros palabras Hpal.
    rewrite (bind_ok set_new _ st (length (heap st))
               (mkState (dict st) (heap st ++ [∅])) eq_refl).
    destruct (or_bucle_crece (length (heap st)) palabras
                (mkState (dict st) (heap st ++ [∅])) Hpal)
      as (st' & Hfor & _); [cbn; rewrite length_app; cbn; lia|].
    rewrite (bind_ok _ _ _ tt st' Hfor). reflexivity.
  - destruct (buscar_palabras_or_extiende frase st) as [nuevos ->]. cbn.
    intros k l Hk Heq. specialize (Hok k l Hk). cbn in Hok. lia.
Qed.

Lemma X20_witness :
  resultado_de (buscar_palabras_or "gato carne") st_ejemplo
  = inr (length (heap st_ejemplo))
  ∧ map_Forall (fun _ l => l <> length (heap st_ejemplo))
               (dict (estado (buscar_palabras_or "gato carne") st_ejemplo)).
Proof.
  apply (X20_buscar_palabras_or_objeto_nuevo "gato carne" st_ejemplo).
  heap_ok_por_calculo.
Defined.

(* ===================================================================== *)
(** * Further properties of the statistics *)
(* ===================================================================== *)

Lemma suma_len_sum valores : forall st,
  suma_len valores st
  = (inr (sum_list ((fun l => size (members (heap st) l)) <$> valores)), st).
Proof.
  induction valores as [|l valores IH]; intros st; [reflexivity|].
  cbn [suma_len].
  rewrite (bind_ok (set_len l) _ st (size (members (heap st) l)) st eq_refl).
  rewrite (bind_ok _ _ _ _ _ (IH st)). reflexivity.
Qed.

(** The call, step by step: the loop over the values is a fold of
    [set_update] on the new set [urls_unicas]. *)
Lemma calcula_estadisticas_indice_pasos st :
  let urls_unicas := length (heap st) in
  let valores := (map_to_list (dict st)).*2 in
  let st' :=
    fold_left (fun s urls => estado (set_update urls_unicas urls) s) valores
              (mkState (dict st) (heap st ++ [∅])) in
  let num_palabras := size (dict st) in
  let total_urls :=
    sum_list ((fun l => size (members (heap st') l)) <$> valores) in
  calcula_estadisticas_indice st
  = (inr (num_palabras, size (members (heap st') urls_unicas),
          if (0 <? num_palabras)%nat
          then PrimFloat.div (float_of_nat total_urls)
                             (float_of_nat num_palabras)
          else 0%float),
     st').
Proof.
  intros urls_unicas valores st' num_palabras total_urls.
  unfold calcula_estadisticas_indice.
  rewrite (bind_ok dict_len _ st num_palabras st eq_refl).
  rewrite (bind_ok set_new _ st urls_unicas
             (mkState (dict st) (heap st ++ [∅])) eq_refl).
  rewrite (bind_ok dict_values _ (mkState (dict st) (heap st ++ [∅]))
             valores (mkState (dict st) (heap st ++ [∅])) eq_refl).
  rewrite (bind_ok _ _ _ tt st'
             (for_each_fold (fun urls => set_update urls_unicas urls)
                (fun s urls => estado (set_update urls_unicas urls) s)
                valores (fun x s => eq_refl) _)).
  rewrite (bind_ok (set_len urls_unicas) _ st'
             (size (members (heap st') urls_unicas)) st' eq_refl).
  rewrite (bind_ok _ _ _ _ _ (suma_len_sum valores st')). reflexivity.
Qed.

Lemma fold_set_update_extiende st valores : forall st1,
  extiende st st1 ->
  extiende st
    (fold_left (fun s urls => estado (set_update (length (heap st)) urls) s)
               valores st1).
Proof.
  induction valores as [|l valores IH]; intros st1 Hext; [exact Hext|].
  cbn [fold_left]. apply IH, set_update_extiende; [lia|exact Hext].
Qed.

(** X21. [calcula_estadisticas_indice] never fails, on any index (the
    empty one included: no division by zero), and leaves the index as it
    found it: same dictionary, every set object with the members it had. *)
Theorem X21_estadisticas_no_falla_ni_modifica (st : state) :
  (exists r, resultado_de calcula_estadisticas_indice st = inr r)
  ∧ extiende st (estado calcula_estadisticas_indice st).
Proof.
  unfold resultado_de, estado. rewrite calcula_estadisticas_indice_pasos.
  cbn [fst snd]. split; [eexists; reflexivity|].
  apply fold_set_update_extiende, extiende_alloc.
Qed.

(** With every reference allocated, the loop gathers the union of the
    sets the values refer to. *)
Lemma fold_set_update_union (d : gmap string nat) (h : list (gset string))
    valores : forall X : gset string,
  Forall (fun l => l < length h) valores ->
  fold_left (fun s urls => estado (set_update (length h) urls) s) valores
            (mkState d (h ++ [X]))
  = mkState d (h ++ [X ∪ ⋃ (members h <$> valores)]).
Proof.
  induction valores as [|l valores IH]; intros X Hval.
  - cbn. rewrite (right_id_L ∅ (∪)). reflexivity.
  - apply Forall_cons in Hval as [Hl Hval]. cbn [fold_left].
    unfold estado at 2, set_update. cbn [fst snd dict heap].
    rewrite alter_new, (members_alloc h X l Hl), (IH _ Hval).
    csimpl. rewrite (assoc_L (∪)). reflexivity.
Qed.

Lemma valores_heap_ok st :
  heap_ok st -> Forall (fun l => l < length (heap st)) (map_to_list (dict st)).*2.
Proof.
  intros Hok. apply Forall_forall. intros l Hl.
  apply list_elem_of_fmap in Hl as ([k l'] & -> & Hkl).
  apply elem_of_map_to_list in Hkl. exact (Hok k l' Hkl).
Qed.

Lemma conjuntos_de_valores st :
  conjuntos_de st = members (heap st) <$> (map_to_list (dict st)).*2.
Proof.
  unfold conjuntos_de, contenido. rewrite map_to_list_fmap.
  rewrite <- !list_fmap_compose. apply list_fmap_ext. intros i [k l] _.
  reflexivity.
Qed.

Lemma sizes_alloc (h : list (gset string)) (X : gset string) valores :
  Forall (fun l => l < length h) valores ->
  (fun l => size (members (h ++ [X]) l)) <$> valores
  = size <$> (members h <$> valores).
Proof.
  induction 1 as [|l valores Hl Hval IH]; csimpl; [reflexivity|].
  rewrite (members_alloc h X l Hl), IH. reflexivity.
Qed.

Lemma calcula_estadisticas_indice_ok st :
  heap_ok st ->
  resultado_de calcula_estadisticas_indice st = inr (estadisticas st).
Proof.
  intros Hok. unfold resultado_de. rewrite calcula_estadisticas_indice_pasos.
  cbn [fst]. pose proof (valores_heap_ok st Hok) as Hval.
  rewrite (fold_set_update_union (dict st) (heap st) _ ∅ Hval).
  cbn [heap]. rewrite members_new, (left_id_L ∅ (∪)).
  rewrite (sizes_alloc _ _ _ Hval).
  unfold estadisticas. rewrite conjuntos_de_valores.
  unfold contenido. rewrite map_size_fmap. reflexivity.
Qed.

(** X22. The statistics are those of the mapping: the number of words
    that are keys, the number of distinct identifiers in the union of the
    posting sets, and the sum of the sizes of the posting sets divided, as
    floats, by the number of words (0.0 when there is no word). *)
Theorem X22_estadisticas_resultado (st : state) :
  heap_ok st ->
  resultado_de calcula_estadisticas_indice st = inr (estadisticas st).
Proof. apply calcula_estadisticas_indice_ok. Qed.

Lemma X22_witness :
  resultado_de calcula_estadisticas_indice st_ejemplo
  = inr (estadisticas st_ejemplo).
Proof. apply (X22_estadisticas_resultado st_ejemplo). heap_ok_por_calculo. Defined.

(** X23. On an index without words the statistics are (0, 0, 0.0),
    whatever else the heap holds. *)
Theorem X23_estadisticas_indice_vacio (h : list (gset string)) :
  resultado_de calcula_estadisticas_indice (indice_vacio h)
  = inr (0, 0, 0%float).
Proof.
  rewrite calcula_estadisticas_indice_ok by apply heap_ok_vacio.
  unfold estadisticas, conjuntos_de, contenido, indice_vacio. cbn [dict heap].
  rewrite fmap_empty, map_to_list_empty, map_size_empty. reflexivity.
Qed.

(* ===================================================================== *)
(** * Queries between indexing calls *)
(* ===================================================================== *)

Lemma tras_indexar_extiende url ws st st1 k :
  heap_ok st -> extiende st st1 ->
  tras_indexar url ws st1 k = tras_indexar url ws st k.
Proof.
  intros Hok [nuevos ->]. unfold tras_indexar, tocado. cbn [dict heap].
  destruct (dict st !! k) as [l|] eqn:Hk; [|reflexivity].
  unfold members. rewrite lookup_app_l by exact (Hok k l Hk). reflexivity.
Qed.

Lemma procesar_tras_extiende url texto st st1 :
  heap_ok st -> extiende st st1 ->
  contenido (estado (procesar_url_en_indice url texto) st1)
  = contenido (estado (procesar_url_en_indice url texto) st).
Proof.
  intros Hok Hext. apply map_eq. intros k. rewrite !estado_procesar.
  rewrite indexar_todas_contenido by (eapply extiende_heap_ok; eassumption).
  rewrite indexar_todas_contenido by exact Hok.
  apply tras_indexar_extiende; assumption.
Qed.

(** X24. Queries and statistics do not interfere with indexing: a call
    of [procesar_url_en_indice] made after any of them leaves the same
    mapping from words to posting sets as the same call made without
    them. *)
Theorem X24_consultas_no_interfieren (url texto frase : string) (st : state) :
  heap_ok st ->
  let tras m := contenido (estado (procesar_url_en_indice url texto)
                                  (estado m st)) in
  let sin := contenido (estado (procesar_url_en_indice url texto) st) in
  tras (buscar_palabra_simple frase) = sin
  ∧ tras (buscar_palabras_or frase) = sin
  ∧ tras (buscar_palabras_and frase) = sin
  ∧ contenido (estado (procesar_url_en_indice url texto)
                      (estado calcula_estadisticas_indice st)) = sin.
Proof.
  intros Hok tras sin. unfold tras, sin.
  repeat split; apply procesar_tras_extiende; try exact Hok.
  - apply buscar_palabra_simple_extiende.
  - apply buscar_palabras_or_extiende.
  - apply buscar_palabras_and_extiende.
  - unfold estado at 1. rewrite calcula_estadisticas_indice_pasos. cbn [snd].
    apply fold_set_update_extiende, extiende_alloc.
Qed.

Lemma X24_witness :
  let tras m := contenido (estado (procesar_url_en_indice "url3" "El gato ladra.")
                                  (estado m st_ejemplo)) in
  let sin :=
    contenido (estado (procesar_url_en_indice "url3" "El gato ladra.")
                      st_ejemplo) in
  tras (buscar_palabra_simple "nada") = sin
  ∧ tras (buscar_palabras_or "nada") = sin
  ∧ tras (buscar_palabras_and "nada") = sin
  ∧ contenido (estado (procesar_url_en_indice "url3" "El gato ladra.")
                      (estado calcula_estadisticas_indice st_ejemplo)) = sin.
Proof.
  apply (X24_consultas_no_interfieren "url3" "El gato ladra." "nada" st_ejemplo).
  heap_ok_por_calculo.
Defined.

(* ===================================================================== *)
(** * The normaliser on any text *)
(* ===================================================================== *)

(** The capital sigma takes its final form at the end of a word and its
    other form inside one. *)
Example u_lower_sigma_final :
  u_lower ucd_ejemplo [913; 931]%N = [945; 962]%N.
Proof. vm_compute. reflexivity. Qed.

Example u_lower_sigma_interior :
  u_lower ucd_ejemplo [913; 931; 46; 913]%N = [945; 963; 46; 945]%N.
Proof. vm_compute. reflexivity. Qed.

Example u_lower_sigma_blanco :
  u_lower ucd_ejemplo [913; 931; 32; 913]%N = [945; 962; 32; 945]%N.
Proof. vm_compute. reflexivity. Qed.

Example normalizar_u_hola_mundo :
  normalizar_texto_u ucd_ejemplo (puntos (String "161" "Hola, Mundo!"))
  = [puntos "hola"; puntos "mundo"].
Proof. vm_compute. reflexivity. Qed.

(** U+2102 is a letter and [lower] leaves it as it is: it is indexed. *)
Example normalizar_u_c_doble :
  normalizar_texto_u ucd_ejemplo (8450%N :: puntos " gato")
  = [[8450%N]; puntos "gato"].
Proof. vm_compute. reflexivity. Qed.

Lemma normalizar_texto_u_filter db texto :
  normalizar_texto_u db texto
  = List.filter (u_es_indexable db)
                (u_split db (u_quitar_puntuacion (u_lower db texto))).
Proof.
  unfold normalizar_texto_u.
  generalize (u_split db (u_quitar_puntuacion (u_lower db texto))).
  intros palabras. rewrite fold_left_append_filter. reflexivity.
Qed.

(** ** What [lower] leaves as it is *)

Section Fijos.
Variable db : ucd.

Lemma do_lower_fijos s : forall antes,
  Forall (fijo db) s -> do_lower db antes s = s.
Proof.
  induction s as [|c s IH]; intros antes Hs; [reflexivity|].
  inversion Hs as [|? ? [Hc Hne] Hs']; subst. cbn [do_lower].
  apply N.eqb_neq in Hne. rewrite Hne, Hc, (IH _ Hs'). reflexivity.
Qed.

Lemma handle_capital_sigma_fijo antes despues :
  ucd_estable db -> fijo db (handle_capital_sigma db antes despues).
Proof.
  intros H. unfold handle_capital_sigma.
  repeat case_match;
    first [apply (estable_final db H) | apply (estable_minuscula db H)].
Qed.

(** The code points of a lowered text are all their own lowercase form. *)
Lemma do_lower_salida s :
  ucd_estable db -> forall antes, Forall (fijo db) (do_lower db antes s).
Proof.
  intros H. induction s as [|c s IH]; intros antes; cbn [do_lower];
    [constructor|].
  apply Forall_app. split; [|apply IH].
  destruct (N.eqb_spec c SIGMA) as [->|Hne].
  - constructor; [apply handle_capital_sigma_fijo, H|constructor].
  - apply Forall_forall. intros d Hd.
    exact (estable_lower db H c d Hne Hd).
Qed.

Lemma do_lower_sin_sigma s : forall antes,
  SIGMA ∉ s -> do_lower db antes s = concat (ToLowerFull db <$> s).
Proof.
  induction s as [|c s IH]; intros antes Hs; [reflexivity|].
  apply not_elem_of_cons in Hs as [Hc Hs].
  rewrite fmap_cons. cbn [do_lower concat].
  assert ((c =? SIGMA)%N = false) as -> by (apply N.eqb_neq; congruence).
  rewrite (IH _ Hs). reflexivity.
Qed.

(** Without a capital sigma [lower] works one code point at a time. *)
Lemma u_lower_app a c b :
  SIGMA ∉ a -> SIGMA ∉ b -> c ≠ SIGMA ->
  u_lower db (a ++ c :: b) = u_lower db a ++ ToLowerFull db c ++ u_lower db b.
Proof.
  intros Ha Hb Hc. unfold u_lower.
  rewrite !do_lower_sin_sigma; try assumption.
  - rewrite fmap_app, fmap_cons, concat_app. reflexivity.
  - rewrite elem_of_app, elem_of_cons. intros [?|[?|?]]; congruence.
Qed.
End Fijos.

(** ** Properties of code points kept by [replace] and [split] *)

Section Conserva.
Variable P : N -> Prop.
Hypothesis P_blanco : P 32%N.

Lemma u_replace_Forall i s : Forall P s -> Forall P (u_replace i 32 s).
Proof.
  intros Hs. unfold u_replace.
  induction Hs as [|c s Hc Hs IH]; [constructor|].
  rewrite fmap_cons. constructor; [|exact IH].
  destruct (c =? i)%N; assumption.
Qed.

Lemma u_quitar_signo_Forall i s : Forall P s -> Forall P (u_quitar_signo s i).
Proof.
  intros Hs. unfold u_quitar_signo.
  destruct (u_contains i s); [apply u_replace_Forall|]; assumption.
Qed.

Lemma fold_u_quitar_signo_Forall l : forall s,
  Forall P s -> Forall P (fold_left u_quitar_signo l s).
Proof.
  induction l as [|i l IH]; intros s Hs; cbn [fold_left]; [assumption|].
  apply IH, u_quitar_signo_Forall, Hs.
Qed.

Lemma u_emit_Forall cur : Forall P cur -> Forall (Forall P) (u_emit cur).
Proof.
  intros H. destruct cur; cbn [u_emit]; [constructor|].
  constructor; [exact H|constructor].
Qed.

Lemma u_split_from_Forall db s : forall cur,
  Forall P cur -> Forall P s -> Forall (Forall P) (u_split_from db cur s).
Proof.
  induction s as [|c s IH]; intros cur Hcur Hs; cbn [u_split_from].
  - apply u_emit_Forall, Hcur.
  - inversion Hs as [|? ? Hc Hs']; subst.
    destruct (IsWhitespace db c).
    + apply Forall_app. split; [apply u_emit_Forall, Hcur|].
      apply IH; [constructor|exact Hs'].
    + apply IH; [|exact Hs'].
      apply Forall_app. split; [exact Hcur|].
      constructor; [exact Hc|constructor].
Qed.
End Conserva.

(** The words of the split are made of code points of the lowered text, or
    of the blank that took the place of a sign. *)
Lemma u_split_quitar_lower_fijos db texto :
  ucd_estable db ->
  Forall (Forall (fijo db))
         (u_split db (u_quitar_puntuacion (u_lower db texto))).
Proof.
  intros H. apply u_split_from_Forall; [constructor|].
  apply fold_u_quitar_signo_Forall; [apply (estable_blanco db H)|].
  apply do_lower_salida, H.
Qed.

Lemma normalizar_texto_u_elem db texto p :
  ucd_estable db ->
  p ∈ normalizar_texto_u db texto ->
  u_es_indexable db p = true ∧ Forall (fijo db) p.
Proof.
  intros H. rewrite normalizar_texto_u_filter, list_elem_of_In, filter_In.
  intros [Hin Hidx]. split; [exact Hidx|].
  pose proof (u_split_quitar_lower_fijos db texto H) as HF.
  rewrite Forall_forall in HF. apply HF, list_elem_of_In, Hin.
Qed.

(** ** The entries of [ucd_ejemplo] *)

Lemma char_lower_lower a : char_lower (char_lower a) = char_lower a.
Proof. por_casos a. Qed.

Lemma char_isspace_lower a : char_isspace a = true -> char_lower a = a.
Proof. por_casos a. Qed.

Lemma code_lt (a : ascii) : (code a < 256)%N.
Proof. apply N_ascii_bounded. Qed.

Lemma code_ltb (a : ascii) : (code a <? 256)%N = true.
Proof. apply N.ltb_lt, code_lt. Qed.

Lemma ascii_of_code (a : ascii) : ascii_of_N (code a) = a.
Proof. apply ascii_N_embedding. Qed.

Lemma code_ascii_of_N (c : N) : (c < 256)%N -> code (ascii_of_N c) = c.
Proof. apply N_ascii_embedding. Qed.

Lemma code_no_sigma (a : ascii) : code a ≠ SIGMA.
Proof. pose proof (code_lt a). unfold SIGMA. lia. Qed.

Lemma ucd_ejemplo_lower_code a :
  ToLowerFull ucd_ejemplo (code a) = [code (char_lower a)].
Proof. cbn [ToLowerFull ucd_ejemplo]. rewrite code_ltb, ascii_of_code. reflexivity. Qed.

Lemma ucd_ejemplo_fijo_lower a : fijo ucd_ejemplo (code (char_lower a)).
Proof.
  split; [|apply code_no_sigma].
  rewrite ucd_ejemplo_lower_code, char_lower_lower. reflexivity.
Qed.

Lemma ucd_ejemplo_fijo_otro c :
  (256 <= c)%N -> c ≠ 913%N -> c ≠ SIGMA -> fijo ucd_ejemplo c.
Proof.
  intros Hc H1 H2. split; [|exact H2]. cbn [ToLowerFull ucd_ejemplo].
  rewrite (proj2 (N.ltb_ge c 256) Hc).
  rewrite (proj2 (N.eqb_neq c 913) H1).
  rewrite (proj2 (N.eqb_neq c 931) H2). reflexivity.
Qed.

Lemma ucd_ejemplo_estable : ucd_estable ucd_ejemplo.
Proof.
  split.
  - intros c d Hne Hd. cbn [ToLowerFull ucd_ejemplo] in Hd.
    destruct (N.ltb_spec c 256) as [Hlt|Hge].
    + apply list_elem_of_singleton in Hd as ->. apply ucd_ejemplo_fijo_lower.
    + destruct (N.eqb_spec c 913) as [->|H1].
      * apply list_elem_of_singleton in Hd as ->.
        apply ucd_ejemplo_fijo_otro; unfold SIGMA; lia.
      * destruct (N.eqb_spec c 931) as [->|H2]; [contradiction|].
        apply list_elem_of_singleton in Hd as ->.
        apply ucd_ejemplo_fijo_otro; assumption.
  - apply ucd_ejemplo_fijo_otro; unfold SIGMA_FINAL, SIGMA; lia.
  - apply ucd_ejemplo_fijo_otro; unfold SIGMA_MINUSCULA, SIGMA; lia.
  - apply (ucd_ejemplo_fijo_lower " "%char).
Qed.

Lemma PUNTUACION_u_latin1 c : c ∈ PUNTUACION_u -> exists a, c = code a.
Proof.
  unfold PUNTUACION_u, puntos. intros (a & -> & _)%list_elem_of_fmap.
  exists a. reflexivity.
Qed.

Lemma PUNTUACION_u_lower :
  Forall (fun a => char_lower a = a) (list_ascii_of_string PUNTUACION).
Proof. apply (bool_decide_unpack _). vm_compute. exact I. Qed.

Lemma ucd_ejemplo_separadores : ucd_separadores ucd_ejemplo.
Proof.
  split.
  - reflexivity.
  - intros c Hc. cbn [IsWhitespace ucd_ejemplo] in Hc.
    apply andb_prop in Hc as [Hlt Hsp]. apply N.ltb_lt in Hlt.
    rewrite <- (code_ascii_of_N c Hlt).
    rewrite <- (char_isspace_lower _ Hsp) at 1.
    apply ucd_ejemplo_fijo_lower.
  - unfold PUNTUACION_u, puntos. intros c (a & -> & Ha)%list_elem_of_fmap.
    rewrite ucd_ejemplo_lower_code.
    pose proof PUNTUACION_u_lower as HF. rewrite Forall_forall in HF.
    rewrite (HF a Ha). reflexivity.
Qed.

Lemma ucd_ejemplo_latin1 : ucd_latin1 ucd_ejemplo.
Proof.
  split; intros a.
  - apply ucd_ejemplo_lower_code.
  - cbn [IsAlpha ucd_ejemplo]. rewrite code_ltb, ascii_of_code. reflexivity.
  - cbn [IsWhitespace ucd_ejemplo]. rewrite code_ltb, ascii_of_code. reflexivity.
  - cbn [IsUppercase ucd_ejemplo]. rewrite code_ltb, ascii_of_code. reflexivity.
Qed.

(** ** The words of a text *)

(** C8. Every word returned by [normalizar_texto] is made of alphabetic
    characters only, is left as it is by [lower], and is not one of
    [STOP_WORDS], whatever the code points of the text. *)
Theorem C8_normalizar_texto_u_tokens (db : ucd) (texto : list N) :
  ucd_estable db ->
  Forall (fun p => u_lower db p = p ∧ u_isalpha db p = true
                   ∧ p ∉ STOP_WORDS_u)
         (normalizar_texto_u db texto).
Proof.
  intros H. apply Forall_forall. intros p Hp.
  apply (normalizar_texto_u_elem db texto p H) in Hp as [Hidx Hfijos].
  unfold u_es_indexable in Hidx. apply andb_prop in Hidx as [Hstop Halpha].
  apply bool_decide_eq_true_1 in Hstop.
  split; [|split; assumption].
  apply do_lower_fijos, Hfijos.
Qed.

Lemma C8_witness :
  ucd_estable ucd_ejemplo
  ∧ Forall (fun p => u_lower ucd_ejemplo p = p
                     ∧ u_isalpha ucd_ejemplo p = true ∧ p ∉ STOP_WORDS_u)
           (normalizar_texto_u ucd_ejemplo (8450%N :: puntos " Gato")).
Proof.
  split; [exact ucd_ejemplo_estable|].
  apply (C8_normalizar_texto_u_tokens ucd_ejemplo (8450%N :: puntos " Gato")).
  exact ucd_ejemplo_estable.
Defined.

(** A word can be left as it is by [lower] and still hold an uppercase
    letter: in the text of U+2102, a blank and "gato", the word U+2102 is
    returned, and it is not lowercase. *)
Lemma C8_counterexample :
  ¬ Forall (fun p => u_is_lowercase ucd_ejemplo p
                     ∧ u_isalpha ucd_ejemplo p = true ∧ p ∉ STOP_WORDS_u)
           (normalizar_texto_u ucd_ejemplo (8450%N :: puntos " gato")).
Proof.
  rewrite normalizar_u_c_doble. intros H.
  apply Forall_inv in H as [[_ H] _]. vm_compute in H. discriminate.
Qed.

(** ** Separators *)

Lemma u_replace_ausente i j s : u_contains i s = false -> u_replace i j s = s.
Proof.
  unfold u_contains, u_replace. induction s as [|c s IH]; [reflexivity|].
  cbn [existsb]. intros [Hc Hs]%orb_false_elim.
  rewrite fmap_cons, (IH Hs). rewrite N.eqb_sym, Hc. reflexivity.
Qed.

Lemma u_quitar_signo_replace s i : u_quitar_signo s i = u_replace i 32 s.
Proof.
  unfold u_quitar_signo. destruct (u_contains i s) eqn:Hi; [reflexivity|].
  symmetry. apply u_replace_ausente, Hi.
Qed.

Lemma fold_u_quitar_signo_app l : forall s t,
  fold_left u_quitar_signo l (s ++ t)
  = fold_left u_quitar_signo l s ++ fold_left u_quitar_signo l t.
Proof.
  induction l as [|i l IH]; intros s t; cbn [fold_left]; [reflexivity|].
  rewrite !u_quitar_signo_replace. unfold u_replace.
  rewrite fmap_app. apply IH.
Qed.

(** The loop over the signs on one code point: a sign becomes a blank, any
    other code point stays. *)
Lemma fold_u_quitar_signo_uno l : forall c,
  fold_left u_quitar_signo l [c]
  = [if bool_decide (c ∈ l) then 32%N else c].
Proof.
  induction l as [|i l IH]; intros c; cbn [fold_left].
  - rewrite bool_decide_eq_false_2 by apply not_elem_of_nil. reflexivity.
  - rewrite u_quitar_signo_replace. unfold u_replace.
    rewrite fmap_cons, fmap_nil, IH.
    destruct (N.eqb_spec c i) as [->|Hne].
    + rewrite (bool_decide_eq_true_2 (i ∈ i :: l)) by apply list_elem_of_here.
      destruct (bool_decide (32%N ∈ l)); reflexivity.
    + f_equal. assert (c ∈ i :: l <-> c ∈ l) as Hiff.
      { rewrite elem_of_cons. tauto. }
      rewrite (bool_decide_ext _ _ Hiff). reflexivity.
Qed.

Lemma u_split_from_separador db c a b : forall cur,
  IsWhitespace db c = true ->
  u_split_from db cur (a ++ c :: b) = u_split_from db cur a ++ u_split db b.
Proof.
  induction a as [|d a IH]; intros cur Hc.
  - cbn [app u_split_from]. rewrite Hc. reflexivity.
  - cbn [app u_split_from]. destruct (IsWhitespace db d).
    + rewrite IH by exact Hc. apply app_assoc.
    + apply IH, Hc.
Qed.

Lemma PUNTUACION_u_no_sigma c : c ∈ PUNTUACION_u -> c ≠ SIGMA.
Proof. intros (a & -> )%PUNTUACION_u_latin1. apply code_no_sigma. Qed.

(** X1. In a text without the capital sigma U+03A3, a sign of [PUNTUACION]
    or a whitespace character between two texts separates them: the words
    of the whole are the words of the first text followed by the words of
    the second. *)
Theorem X1_normalizar_texto_u_separador (db : ucd) (a b : list N) (c : N) :
  ucd_separadores db ->
  SIGMA ∉ a -> SIGMA ∉ b ->
  c ∈ PUNTUACION_u ∨ IsWhitespace db c = true ->
  normalizar_texto_u db (a ++ c :: b)
  = normalizar_texto_u db a ++ normalizar_texto_u db b.
Proof.
  intros Hdb Ha Hb Hc.
  assert (ToLowerFull db c = [c] ∧ c ≠ SIGMA) as [Hlow Hne].
  { destruct Hc as [Hc|Hc].
    - split; [apply (separadores_signo db Hdb), Hc
             |apply PUNTUACION_u_no_sigma, Hc].
    - apply (separadores_espacio db Hdb), Hc. }
  rewrite !normalizar_texto_u_filter.
  rewrite (u_lower_app db a c b Ha Hb Hne), Hlow.
  unfold u_quitar_puntuacion.
  rewrite !fold_u_quitar_signo_app, fold_u_quitar_signo_uno.
  unfold u_split. cbn [app].
  rewrite u_split_from_separador; [apply List.filter_app|].
  case_bool_decide as Hin.
  - apply (separadores_blanco db Hdb).
  - destruct Hc as [Hc|Hc]; [contradiction|exact Hc].
Qed.

Lemma X1_witness :
  ucd_separadores ucd_ejemplo
  ∧ normalizar_texto_u ucd_ejemplo ([8450%N] ++ 44%N :: puntos "Mundo")
    = normalizar_texto_u ucd_ejemplo [8450%N]
      ++ normalizar_texto_u ucd_ejemplo (puntos "Mundo").
Proof.
  split; [exact ucd_ejemplo_separadores|].
  apply (X1_normalizar_texto_u_separador ucd_ejemplo [8450%N] (puntos "Mundo")
           44%N ucd_ejemplo_separadores).
  - apply (bool_decide_unpack _). vm_compute. exact I.
  - apply (bool_decide_unpack _). vm_compute. exact I.
  - left. apply (bool_decide_unpack _). vm_compute. exact I.
Defined.

(** ** Texts in U+0000..U+00FF *)

Lemma puntos_cons a s : puntos (String a s) = code a :: puntos s.
Proof. reflexivity. Qed.

Lemma puntos_app s t : puntos (s +:+ t) = puntos s ++ puntos t.
Proof.
  induction s as [|a s IH]; [reflexivity|].
  rewrite append_cons, !puntos_cons, IH. reflexivity.
Qed.

Lemma code_inj a b : code a = code b -> a = b.
Proof.
  intros E. rewrite <- (ascii_of_code a), <- (ascii_of_code b), E.
  reflexivity.
Qed.

Lemma code_eqb a b : (code a =? code b)%N = Ascii.eqb a b.
Proof.
  destruct (Ascii.eqb_spec a b) as [->|Hne].
  - apply N.eqb_refl.
  - apply N.eqb_neq. intros E. apply Hne, code_inj, E.
Qed.

Lemma puntos_inj s t : puntos s = puntos t -> s = t.
Proof.
  revert t. induction s as [|a s IH]; intros [|b t]; try discriminate.
  - reflexivity.
  - rewrite !puntos_cons. intros E. injection E as Ea Es.
    rewrite (code_inj _ _ Ea), (IH _ Es). reflexivity.
Qed.

Lemma STOP_WORDS_u_puntos p : puntos p ∈ STOP_WORDS_u <-> p ∈ STOP_WORDS.
Proof.
  unfold STOP_WORDS_u. rewrite elem_of_map. split.
  - intros (q & E & Hq). apply puntos_inj in E. subst q. exact Hq.
  - intros Hp. exists p. split; [reflexivity|exact Hp].
Qed.

Lemma u_contains_puntos i s : u_contains (code i) (puntos s) = contains i s.
Proof.
  unfold u_contains. induction s as [|a s IH]; [reflexivity|].
  rewrite puntos_cons. cbn [existsb contains].
  rewrite IH, code_eqb, ascii_eqb_sym. reflexivity.
Qed.

Lemma u_replace_puntos i j s :
  u_replace (code i) (code j) (puntos s) = puntos (replace i j s).
Proof.
  unfold u_replace. induction s as [|a s IH]; [reflexivity|].
  cbn [replace]. rewrite !puntos_cons, fmap_cons, IH, code_eqb.
  destruct (Ascii.eqb a i); reflexivity.
Qed.

Lemma u_quitar_signo_puntos s i :
  u_quitar_signo (puntos s) (code i) = puntos (quitar_signo s i).
Proof.
  unfold u_quitar_signo, quitar_signo. rewrite u_contains_puntos.
  destruct (contains i s); [|reflexivity].
  apply (u_replace_puntos i " "%char).
Qed.

Lemma fold_u_quitar_signo_puntos l : forall s,
  fold_left u_quitar_signo (code <$> l) (puntos s)
  = puntos (fold_left quitar_signo l s).
Proof.
  induction l as [|i l IH]; intros s; [reflexivity|].
  rewrite fmap_cons. cbn [fold_left].
  rewrite u_quitar_signo_puntos. apply IH.
Qed.

Lemma u_quitar_puntuacion_puntos s :
  u_quitar_puntuacion (puntos s) = puntos (quitar_puntuacion s).
Proof. apply fold_u_quitar_signo_puntos. Qed.

Lemma u_emit_puntos cur : u_emit (puntos cur) = puntos <$> emit cur.
Proof. destruct cur; reflexivity. Qed.

Section Latin1.
Variable db : ucd.
Hypothesis Hdb : ucd_latin1 db.

Lemma do_lower_puntos s : forall antes,
  do_lower db antes (puntos s) = puntos (lower s).
Proof.
  induction s as [|a s IH]; intros antes; [reflexivity|].
  cbn [lower]. rewrite !puntos_cons. cbn [do_lower].
  rewrite (proj2 (N.eqb_neq _ _) (code_no_sigma a)).
  rewrite (latin1_lower db Hdb), IH. reflexivity.
Qed.

Lemma u_split_from_puntos s : forall cur,
  u_split_from db (puntos cur) (puntos s) = puntos <$> split_from cur s.
Proof.
  induction s as [|a s IH]; intros cur; [apply u_emit_puntos|].
  rewrite puntos_cons. cbn [u_split_from split_from].
  rewrite (latin1_space db Hdb). destruct (char_isspace a).
  - rewrite fmap_app, u_emit_puntos. f_equal. apply (IH EmptyString).
  - rewrite <- IH, puntos_app. reflexivity.
Qed.

Lemma forallb_alpha_puntos p :
  forallb (IsAlpha db) (puntos p) = all_chars char_isalpha p.
Proof.
  induction p as [|a p IH]; [reflexivity|].
  rewrite puntos_cons. cbn [forallb all_chars].
  rewrite (latin1_alpha db Hdb), IH. reflexivity.
Qed.

Lemma u_isalpha_puntos p : u_isalpha db (puntos p) = isalpha p.
Proof. destruct p as [|a p]; [reflexivity|]. apply forallb_alpha_puntos. Qed.

Lemma forallb_upper_puntos p :
  forallb (fun c => negb (IsUppercase db c)) (puntos p) = all_chars no_upper p.
Proof.
  induction p as [|a p IH]; [reflexivity|].
  rewrite puntos_cons. cbn [forallb all_chars].
  rewrite (latin1_upper db Hdb), IH. reflexivity.
Qed.

Lemma u_es_indexable_puntos p : u_es_indexable db (puntos p) = es_indexable p.
Proof.
  unfold u_es_indexable, es_indexable. rewrite u_isalpha_puntos.
  f_equal. apply bool_decide_ext. rewrite STOP_WORDS_u_puntos. reflexivity.
Qed.

Lemma filter_puntos l :
  List.filter (u_es_indexable db) (puntos <$> l)
  = puntos <$> List.filter es_indexable l.
Proof.
  induction l as [|p l IH]; [reflexivity|].
  rewrite fmap_cons. cbn [List.filter]. rewrite u_es_indexable_puntos, IH.
  destruct (es_indexable p); reflexivity.
Qed.

(** On a text in U+0000..U+00FF [normalizar_texto_u] returns the words
    [normalizar_texto] returns. *)
Lemma normalizar_texto_u_latin1 s :
  normalizar_texto_u db (puntos s) = puntos <$> normalizar_texto s.
Proof.
  rewrite normalizar_texto_u_filter, normalizar_texto_filter.
  unfold u_lower. rewrite do_lower_puntos, u_quitar_puntuacion_puntos.
  unfold u_split, split.
  rewrite (u_split_from_puntos _ EmptyString). apply filter_puntos.
Qed.

Lemma u_is_lowercase_puntos p : is_lowercase p -> u_is_lowercase db (puntos p).
Proof.
  intros [Hlow Hup]. split.
  - unfold u_lower. rewrite do_lower_puntos, Hlow. reflexivity.
  - rewrite forallb_upper_puntos. exact Hup.
Qed.

(** On such a text every word returned is lowercase: no uppercase letter
    of U+0000..U+00FF is without a lowercase form. *)
Lemma normalizar_texto_u_tokens_latin1 s :
  Forall (fun p => u_is_lowercase db p ∧ u_isalpha db p = true
                   ∧ p ∉ STOP_WORDS_u)
         (normalizar_texto_u db (puntos s)).
Proof.
  rewrite normalizar_texto_u_latin1. apply Forall_fmap.
  eapply Forall_impl; [apply normalizar_texto_tokens_latin1|].
  intros p (Hlow & Halpha & Hstop). cbn. split; [|split].
  - apply u_is_lowercase_puntos, Hlow.
  - rewrite u_isalpha_puntos. exact Halpha.
  - rewrite STOP_WORDS_u_puntos. exact Hstop.
Qed.
End Latin1.
